(** * SHAKE-128/256 (Keccak sponge) and the key-generation placeholder hash

    A shallow embedding of the C sources:
    - the SHAKE file (Keccak-f[1600], the sponge operations, the one-shot
      [shake128] / [shake256]), in [Module Keccak];
    - the placeholder [shake256] of [Dilithium_key_gen.c] and its two
      callers, in [Module KeyGen].

    Conventions.
    - [uint64_t], [size_t] and [int] values are [Z]; wrap-around of the
      64-bit operations is written out with [wrap64].
    - [uint8_t] values are [Z]; a byte store truncates with [Z.land _ 0xFF].
    - The array [state[25]] is a [list Z]; the [uint8_t *] view of it is
      little-endian: flat byte [p] is bits [8*(p mod 8) ..+8] of lane
      [p / 8].
    - [printf] output on stdout is not modelled; the [fprintf (stderr, _)]
      of [shake_init] is. *)

From Stdlib Require Import ZArith List Lia Bool String.
From stdpp Require Import base list.
From coqutil Require Import Z.bitblast.
Import ListNotations.
Local Open Scope Z_scope.

(** ** Loops and arrays *)

(** [for (int i = 0; i < n; i++) a = body i a]. *)
Definition for_ {A : Type} (n : nat) (body : Z -> A -> A) (a : A) : A :=
  fold_left (fun acc i => body (Z.of_nat i) acc) (seq 0 n) a.

(** The same loop for a body that also appends to a log. *)
Definition for_log {A L : Type} (n : nat) (body : Z -> A -> A * list L)
    (a : A) : A * list L :=
  fold_left (fun acc i => let '(r, l) := body (Z.of_nat i) (fst acc) in
                          (r, snd acc ++ l))
            (seq 0 n) (a, []).

(** [a[i]] and [a[i] = v] on an array of 64-bit words.  An index outside
    the array reads a fixed default value and writes nothing here; in C
    it is outside the object.  The permutation only uses constant indices below 25, and the
    sponge invariants below show that an engine driven in call order
    ([shake_init], absorb, finalize, squeeze) stays below byte 200. *)
Definition rd (a : list Z) (i : Z) : Z := a !!! Z.to_nat i.
Definition wr (a : list Z) (i v : Z) : list Z := <[Z.to_nat i := v]> a.

Definition wrap64 (x : Z) : Z := x mod 2 ^ 64.

Module Keccak.

Local Infix "(+)" := Z.lxor (at level 50, left associativity).

Definition KECCAK_ROUNDS : nat := 24.
Definition STATE_SIZE : nat := 25.
Definition SHAKE128_RATE : Z := 168.
Definition SHAKE256_RATE : Z := 136.

Record keccak_state : Type := mk_keccak_state
  { state : list Z;      (* uint64_t state[STATE_SIZE] *)
    rate : Z;            (* size_t rate *)
    absorb_pos : Z       (* size_t absorb_pos *) }.

Definition keccak_rotations : list Z :=
  [ 0;  1;  62; 28; 27;
    36; 44; 6;  55; 20;
    3;  10; 43; 25; 39;
    41; 45; 15; 21; 8;
    18; 2;  61; 56; 14 ].

Definition keccak_round_constants : list Z :=
  [ 0x0000000000000001; 0x0000000000008082;
    0x800000000000808A; 0x8000000080008000;
    0x000000000000808B; 0x0000000080000001;
    0x8000000080008081; 0x8000000000008009;
    0x000000000000008A; 0x0000000000000088;
    0x0000000080008009; 0x000000008000000A;
    0x000000008000808B; 0x800000000000008B;
    0x8000000000008089; 0x8000000000008003;
    0x8000000000008002; 0x8000000000000080;
    0x000000000000800A; 0x800000008000000A;
    0x8000000080008081; 0x8000000000008080;
    0x0000000080000001; 0x8000000080008008 ].

(** [(x << n) | (x >> (64 - n))] on [uint64_t].  At [n = 0] the right
    operand is a shift by the full width, which C leaves undefined; the
    embedding takes the mathematical shift there ([x >> 64 = 0] for a
    64-bit [x]), which gives [x], the value that hardware masking the
    shift count to 6 bits gives as well ([rotl64_0],
    [rotl64_masked_agrees]). *)
Definition rotl64 (x n : Z) : Z :=
  Z.lor (wrap64 (Z.shiftl x n)) (Z.shiftr x (64 - n)).

(** The same expression when the shift count is taken modulo 64. *)
Definition rotl64_masked (x n : Z) : Z :=
  Z.lor (wrap64 (Z.shiftl x (n mod 64))) (Z.shiftr x ((64 - n) mod 64)).

Definition idx (x y : Z) : Z := y * 5 + x.

(** [~b] on [uint64_t]. *)
Definition not64 (b : Z) : Z := wrap64 (Z.lnot b).

(** *** One round, step by step *)

Definition theta_C (st : list Z) : list Z :=
  for_ 5 (fun x C =>
    wr C x (rd st (idx x 0) (+) rd st (idx x 1) (+)
            rd st (idx x 2) (+) rd st (idx x 3) (+)
            rd st (idx x 4)))
    (repeat 0 5).

Definition theta_D (C : list Z) : list Z :=
  for_ 5 (fun x D =>
    wr D x (rd C (Z.rem (x + 4) 5) (+) rotl64 (rd C (Z.rem (x + 1) 5)) 1))
    (repeat 0 5).

Definition theta_apply (D st : list Z) : list Z :=
  for_ 5 (fun x st =>
    for_ 5 (fun y st => wr st (idx x y) (rd st (idx x y) (+) rd D x)) st) st.

Definition theta (st : list Z) : list Z :=
  theta_apply (theta_D (theta_C st)) st.

(** ρ and π, fused: the scratch array [B] is written at the permuted
    index.  Every slot of [B] is written once per round. *)
Definition rho_pi (st : list Z) : list Z :=
  for_ 5 (fun x B =>
    for_ 5 (fun y B =>
      let new_x := y in
      let new_y := Z.rem (2 * x + 3 * y) 5 in
      wr B (idx new_x new_y)
           (rotl64 (rd st (idx x y)) (rd keccak_rotations (idx x y)))) B)
    (repeat 0 25).

Definition chi (B st : list Z) : list Z :=
  for_ 5 (fun y st =>
    for_ 5 (fun x st =>
      wr st (idx x y)
         (rd B (idx x y) (+)
          Z.land (not64 (rd B (idx (Z.rem (x + 1) 5) y)))
                 (rd B (idx (Z.rem (x + 2) 5) y)))) st) st.

Definition iota (round : Z) (st : list Z) : list Z :=
  wr st 0 (rd st 0 (+) rd keccak_round_constants round).

Definition keccak_round (round : Z) (st : list Z) : list Z :=
  let st1 := theta st in
  let B := rho_pi st1 in
  let st2 := chi B st1 in
  iota round st2.

Definition keccak_f1600 (st : list Z) : list Z :=
  for_ KECCAK_ROUNDS keccak_round st.

(** *** The flat byte view *)

(** [state_bytes[p]] as a read. *)
Definition get_byte (st : list Z) (p : Z) : Z :=
  Z.land (Z.shiftr (rd st (p / 8)) (8 * (p mod 8))) 0xFF.

(** The 64-bit word [w] with the byte at bit offset [k] replaced by [v]
    (truncated to eight bits). *)
Definition lane_put (w k v : Z) : Z :=
  Z.lor (Z.land w (Z.lnot (Z.shiftl 0xFF k))) (Z.shiftl (Z.land v 0xFF) k).

(** [state_bytes[p] = v]: the byte is replaced, the other seven bytes of
    the lane are kept. *)
Definition set_byte (st : list Z) (p v : Z) : list Z :=
  alter (fun w => lane_put w (8 * (p mod 8)) v) (Z.to_nat (p / 8)) st.

(** [state_bytes[p] ^= v]. *)
Definition xor_byte (st : list Z) (p v : Z) : list Z :=
  set_byte st p (get_byte st p (+) v).

(** *** Sponge construction *)

(** [shake_init] with what it writes on stderr.  [memset] clears the
    whole context first, so the result does not depend on the old one. *)
Definition shake_init_io (shake_bits : Z) : keccak_state * list string :=
  let ctx := mk_keccak_state (repeat 0 STATE_SIZE) 0 0 in
  let '(ctx, err) :=
    if shake_bits =? 128 then
      (mk_keccak_state (state ctx) SHAKE128_RATE (absorb_pos ctx), [])
    else if shake_bits =? 256 then
      (mk_keccak_state (state ctx) SHAKE256_RATE (absorb_pos ctx), [])
    else
      (mk_keccak_state (state ctx) SHAKE128_RATE (absorb_pos ctx),
       ["Invalid SHAKE variant"%string]) in
  (mk_keccak_state (state ctx) (rate ctx) 0, err).

Definition shake_init (shake_bits : Z) : keccak_state :=
  fst (shake_init_io shake_bits).

(** One iteration of the loop of [shake_absorb]. *)
Definition absorb_byte (ctx : keccak_state) (b : Z) : keccak_state :=
  let st := xor_byte (state ctx) (absorb_pos ctx) b in
  let pos := wrap64 (absorb_pos ctx + 1) in
  if pos =? rate ctx
  then mk_keccak_state (keccak_f1600 st) (rate ctx) 0
  else mk_keccak_state st (rate ctx) pos.

(** [inlen] is the length of [input]. *)
Definition shake_absorb (ctx : keccak_state) (input : list Z) : keccak_state :=
  fold_left absorb_byte input ctx.

(** The two padding writes of [shake_finalize], before its permutation. *)
Definition finalize_pad (ctx : keccak_state) : list Z :=
  let st := xor_byte (state ctx) (absorb_pos ctx) 0x1F in
  xor_byte st (wrap64 (rate ctx - 1)) 0x80.

Definition shake_finalize (ctx : keccak_state) : keccak_state :=
  mk_keccak_state (keccak_f1600 (finalize_pad ctx)) (rate ctx) 0.

(** The permutation at the head of an iteration of [shake_squeeze]. *)
Definition squeeze_refill (ctx : keccak_state) : keccak_state :=
  if absorb_pos ctx =? rate ctx
  then mk_keccak_state (keccak_f1600 (state ctx)) (rate ctx) 0
  else ctx.

(** [shake_squeeze]: the context after the call and the [outlen] bytes
    written to [output]. *)
Fixpoint shake_squeeze (ctx : keccak_state) (outlen : nat)
    : keccak_state * list Z :=
  match outlen with
  | O => (ctx, [])
  | S n =>
      let ctx1 := squeeze_refill ctx in
      let b := get_byte (state ctx1) (absorb_pos ctx1) in
      let ctx2 := mk_keccak_state (state ctx1) (rate ctx1)
                                  (wrap64 (absorb_pos ctx1 + 1)) in
      let '(ctx3, out) := shake_squeeze ctx2 n in
      (ctx3, b :: out)
  end.

(** *** High-level API: the bytes left in [output]. *)

Definition shake128 (outlen : nat) (input : list Z) : list Z :=
  let ctx := shake_init 128 in
  let ctx := shake_absorb ctx input in
  let ctx := shake_finalize ctx in
  snd (shake_squeeze ctx outlen).

Definition shake256 (outlen : nat) (input : list Z) : list Z :=
  let ctx := shake_init 256 in
  let ctx := shake_absorb ctx input in
  let ctx := shake_finalize ctx in
  snd (shake_squeeze ctx outlen).

(** *** Ghost instrumentation

    The same code with a log: the arguments of every call of [rotl64]
    inside the permutation, and the byte accesses of the sponge
    operations.  [keccak_f1600_log_fst] and the [_steps_replay] lemmas
    tie the logs to the functions above. *)

Definition theta_D_log (C : list Z) : list Z * list (Z * Z) :=
  for_log 5 (fun x D =>
    let v := rd C (Z.rem (x + 1) 5) in
    (wr D x (rd C (Z.rem (x + 4) 5) (+) rotl64 v 1), [(v, 1)]))
    (repeat 0 5).

Definition rho_pi_log (st : list Z) : list Z * list (Z * Z) :=
  for_log 5 (fun x B =>
    for_log 5 (fun y B =>
      let new_x := y in
      let new_y := Z.rem (2 * x + 3 * y) 5 in
      let v := rd st (idx x y) in
      let n := rd keccak_rotations (idx x y) in
      (wr B (idx new_x new_y) (rotl64 v n), [(v, n)])) B)
    (repeat 0 25).

Definition keccak_round_log (round : Z) (st : list Z)
    : list Z * list (Z * Z) :=
  let '(D, l1) := theta_D_log (theta_C st) in
  let st1 := theta_apply D st in
  let '(B, l2) := rho_pi_log st1 in
  let st2 := chi B st1 in
  (iota round st2, l1 ++ l2).

(** The permuted state and the [(x, n)] of every [rotl64 (x, n)]
    evaluated on the way, in order. *)
Definition keccak_f1600_log (st : list Z) : list Z * list (Z * Z) :=
  for_log KECCAK_ROUNDS keccak_round_log st.

(** The second arguments of the [rotl64] calls of one round, in order:
    five rotations by 1 in θ, then [keccak_rotations[idx (x, y)]] for
    [x], [y] in loop order in ρ/π. *)
Definition round_rotl64_counts : list Z :=
  repeat 1 5 ++
  flat_map (fun x => map (fun y => rd keccak_rotations (idx x y)) (seqZ 0 5))
           (seqZ 0 5).

(** What the sponge operations do to the lanes, one step at a time. *)
Inductive sponge_step : Type :=
  | StXor (p v : Z)     (* state_bytes[p] ^= v *)
  | StRead (p : Z)      (* output[i] = state_bytes[p] *)
  | StPermute.          (* keccak_f1600(ctx->state) *)

Definition run_step (st : list Z) (s : sponge_step) : list Z :=
  match s with
  | StXor p v => xor_byte st p v
  | StRead _ => st
  | StPermute => keccak_f1600 st
  end.

(** The flat byte index a step reads or writes. *)
Definition touched (s : sponge_step) : option Z :=
  match s with
  | StXor p _ => Some p
  | StRead p => Some p
  | StPermute => None
  end.

Definition in_rate (r : Z) (s : sponge_step) : Prop :=
  match touched s with
  | Some p => 0 <= p < r
  | None => True
  end.

Definition absorb_byte_steps (ctx : keccak_state) (b : Z) : list sponge_step :=
  StXor (absorb_pos ctx) b ::
  (if wrap64 (absorb_pos ctx + 1) =? rate ctx then [StPermute] else []).

Fixpoint shake_absorb_steps (ctx : keccak_state) (input : list Z)
    : list sponge_step :=
  match input with
  | [] => []
  | b :: input' =>
      absorb_byte_steps ctx b ++ shake_absorb_steps (absorb_byte ctx b) input'
  end.

Definition shake_finalize_steps (ctx : keccak_state) : list sponge_step :=
  [StXor (absorb_pos ctx) 0x1F; StXor (wrap64 (rate ctx - 1)) 0x80; StPermute].

Fixpoint shake_squeeze_steps (ctx : keccak_state) (outlen : nat)
    : list sponge_step :=
  match outlen with
  | O => []
  | S n =>
      let ctx1 := squeeze_refill ctx in
      let ctx2 := mk_keccak_state (state ctx1) (rate ctx1)
                                  (wrap64 (absorb_pos ctx1 + 1)) in
      (if absorb_pos ctx =? rate ctx then [StPermute] else []) ++
      StRead (absorb_pos ctx1) :: shake_squeeze_steps ctx2 n
  end.

(** A run of the engine as its callers drive it: [shake_init], any number
    of [shake_absorb] calls, [shake_finalize], any number of
    [shake_squeeze] calls. *)
Fixpoint absorb_calls_steps (ctx : keccak_state) (chunks : list (list Z))
    : list sponge_step :=
  match chunks with
  | [] => []
  | m :: ms => shake_absorb_steps ctx m ++ absorb_calls_steps (shake_absorb ctx m) ms
  end.

Fixpoint squeeze_calls (ctx : keccak_state) (outs : list nat) : keccak_state :=
  match outs with
  | [] => ctx
  | n :: ns => squeeze_calls (fst (shake_squeeze ctx n)) ns
  end.

Fixpoint squeeze_calls_steps (ctx : keccak_state) (outs : list nat)
    : list sponge_step :=
  match outs with
  | [] => []
  | n :: ns =>
      shake_squeeze_steps ctx n ++
      squeeze_calls_steps (fst (shake_squeeze ctx n)) ns
  end.

Definition session (shake_bits : Z) (chunks : list (list Z)) (outs : list nat)
    : keccak_state :=
  squeeze_calls
    (shake_finalize (fold_left shake_absorb chunks (shake_init shake_bits)))
    outs.

Definition session_steps (shake_bits : Z) (chunks : list (list Z))
    (outs : list nat) : list sponge_step :=
  let c0 := shake_init shake_bits in
  let c1 := fold_left shake_absorb chunks c0 in
  absorb_calls_steps c0 chunks ++ shake_finalize_steps c1 ++
  squeeze_calls_steps (shake_finalize c1) outs.

(** What holds of a context between [shake_init] and [shake_finalize],
    and from [shake_finalize] on. *)
Definition absorbing_inv (ctx : keccak_state) : Prop :=
  0 <= absorb_pos ctx < rate ctx /\ rate ctx <= 200 /\
  length (state ctx) = STATE_SIZE.

Definition squeezing_inv (ctx : keccak_state) : Prop :=
  0 <= absorb_pos ctx <= rate ctx /\ 0 < rate ctx <= 200 /\
  length (state ctx) = STATE_SIZE.

(** *** The scratch arrays of the permutation

    [C], [D] and [B] are locals of [keccak_f1600], declared without an
    initialiser and kept from one round to the next.  Here they are
    explicit: each round starts from the arrays the previous one left. *)

Definition theta_C_from (C0 st : list Z) : list Z :=
  for_ 5 (fun x C =>
    wr C x (rd st (idx x 0) (+) rd st (idx x 1) (+)
            rd st (idx x 2) (+) rd st (idx x 3) (+)
            rd st (idx x 4)))
    C0.

Definition theta_D_from (D0 C : list Z) : list Z :=
  for_ 5 (fun x D =>
    wr D x (rd C (Z.rem (x + 4) 5) (+) rotl64 (rd C (Z.rem (x + 1) 5)) 1))
    D0.

Definition rho_pi_from (B0 st : list Z) : list Z :=
  for_ 5 (fun x B =>
    for_ 5 (fun y B =>
      let new_x := y in
      let new_y := Z.rem (2 * x + 3 * y) 5 in
      wr B (idx new_x new_y)
           (rotl64 (rd st (idx x y)) (rd keccak_rotations (idx x y)))) B)
    B0.

(** One round on the state together with the three scratch arrays. *)
Definition keccak_round_scratch (round : Z)
    (s : list Z * (list Z * list Z * list Z))
    : list Z * (list Z * list Z * list Z) :=
  let '(st, (C0, D0, B0)) := s in
  let C := theta_C_from C0 st in
  let D := theta_D_from D0 C in
  let st1 := theta_apply D st in
  let B := rho_pi_from B0 st1 in
  let st2 := chi B st1 in
  (iota round st2, (C, D, B)).

(** [keccak_f1600] started with [C0], [D0], [B0] in the scratch arrays. *)
Definition keccak_f1600_scratch (C0 D0 B0 st : list Z) : list Z :=
  fst (for_ KECCAK_ROUNDS keccak_round_scratch (st, (C0, D0, B0))).

(** A 64-bit lane, and a state of 25 of them. *)
Definition u64 (x : Z) : Prop := 0 <= x < 2 ^ 64.

Definition lanes_ok (st : list Z) : Prop :=
  length st = STATE_SIZE /\ Forall u64 st.

(** The number of [keccak_f1600] calls among logged steps. *)
Definition is_permute (s : sponge_step) : bool :=
  match s with
  | StPermute => true
  | _ => false
  end.

Definition permutations (steps : list sponge_step) : nat :=
  length (List.filter is_permute steps).

(** Replay of a step that also collects what the logged reads return:
    the lanes after the step, and the bytes read so far. *)
Definition read_step (acc : list Z * list Z) (s : sponge_step)
    : list Z * list Z :=
  (run_step (fst acc) s,
   snd acc ++ match s with
              | StRead p => [get_byte (fst acc) p]
              | _ => []
              end).

(** The bytes that the logged reads return when the steps are replayed
    on the lanes [st], in order. *)
Definition run_steps_reads (st : list Z) (steps : list sponge_step) : list Z :=
  snd (fold_left read_step steps (st, [])).

(** The bytes written to [output] by successive [shake_squeeze] calls, and
    by those of a run of the engine. *)
Fixpoint squeeze_calls_output (ctx : keccak_state) (outs : list nat)
    : list Z :=
  match outs with
  | [] => []
  | n :: ns =>
      snd (shake_squeeze ctx n) ++
      squeeze_calls_output (fst (shake_squeeze ctx n)) ns
  end.

Definition session_output (shake_bits : Z) (chunks : list (list Z))
    (outs : list nat) : list Z :=
  squeeze_calls_output
    (shake_finalize (fold_left shake_absorb chunks (shake_init shake_bits)))
    outs.

End Keccak.

(** ** The placeholder hash of the key-generation demo *)

Module KeyGen.

Definition Q : Z := 8380417.
Definition N : nat := 256.
Definition K : nat := 4.
Definition L : nat := 4.
Definition ETA : Z := 2.
Definition SEEDBYTES : nat := 32.

(** [input[i % inlen] ^ (i & 0xFF)], stored in a [uint8_t].  [None] is
    what C leaves undefined: the remainder by [inlen = 0], and a read
    outside the buffer [input]. *)
Definition shake256_byte (input : list Z) (inlen : Z) (i : Z) : option Z :=
  if inlen =? 0 then None
  else
    b ← input !! Z.to_nat (i mod inlen);
    Some (Z.land (Z.lxor b (Z.land i 0xFF)) 0xFF).

(** Iterations [i, i + 1, ..., i + n - 1] of the loop. *)
Fixpoint shake256_loop (input : list Z) (inlen : Z) (i : Z) (n : nat)
    : option (list Z) :=
  match n with
  | O => Some []
  | S n' =>
      b ← shake256_byte input inlen i;
      out ← shake256_loop input inlen (i + 1) n';
      Some (b :: out)
  end.

Definition shake256 (outlen : nat) (input : list Z) (inlen : Z)
    : option (list Z) :=
  shake256_loop input inlen 0 outlen.

(** [memcpy (buf, seed, SEEDBYTES)] followed by the two trailing bytes:
    the [SEEDBYTES + 2] byte local buffer of both callers. *)
Definition expand_seed (seed : list Z) (b0 b1 : Z) : list Z :=
  take SEEDBYTES seed ++ [Z.land b0 0xFF; Z.land b1 0xFF].

(** The coefficients written to [p->coeffs]. *)
Definition sample_small_poly (seed : list Z) (nonce : Z) : option (list Z) :=
  let expanded_seed := expand_seed seed (Z.land nonce 0xFF) (Z.shiftr nonce 8) in
  buf ← shake256 (N * 2) expanded_seed (Z.of_nat SEEDBYTES + 2);
  Some (for_ N (fun i coeffs =>
                  let val := Z.rem (rd buf i) (2 * ETA + 1) - ETA in
                  wr coeffs i val)
             (repeat 0 N)).

(** The coefficients of [A[i][j]]. *)
Definition expand_entry (seed : list Z) (i j : Z) : option (list Z) :=
  let expanded := expand_seed seed i j in
  poly_seed ← shake256 (N * 4) expanded (Z.of_nat SEEDBYTES + 2);
  Some (for_ N (fun k coeffs =>
                  let val := for_ 3 (fun b val =>
                               Z.lor val (Z.shiftl (rd poly_seed (k * 3 + b)) (8 * b)))
                               0 in
                  wr coeffs k (val mod Q))
             (repeat 0 N)).

Definition expand_matrix_a (seed : list Z) : option (list (list (list Z))) :=
  mapM (fun i => mapM (fun j => expand_entry seed i j) (seqZ 0 (Z.of_nat L)))
       (seqZ 0 (Z.of_nat K)).

(** *** Polynomial arithmetic of the demo

    A [poly] is its array of [N] coefficients ([int32_t]); sums and
    products are formed in [int64_t].  The product of two [int32_t]
    values plus an [int32_t] stays below [2 ^ 63] in absolute value, so
    no wrap-around occurs in these functions and none is written. *)

Definition D : Z := 13.

(** [a % Q] is the C remainder, with the sign of [a]. *)
Definition reduce_mod_q (a : Z) : Z :=
  let result := Z.rem a Q in
  if result <? 0 then result + Q else result.

Definition poly_zero : list Z := repeat 0 N.

(** [poly_add (r, a, b)] when [r] is a third object; the coefficients
    left in [r]. *)
Definition poly_add (a b : list Z) : list Z :=
  for_ N (fun i r => wr r i (reduce_mod_q (rd a i + rd b i))) (repeat 0 N).

(** [poly_add (a, a, b)], as both callers use it: [r] and [a] are the
    same object, so [a->coeffs[i]] is read from the array being written. *)
Definition poly_add_inplace (a b : list Z) : list Z :=
  for_ N (fun i r => wr r i (reduce_mod_q (rd r i + rd b i))) a.

(** [poly_multiply (r, a, b)] with [r] distinct from [a] and [b]. *)
Definition poly_multiply (a b : list Z) : list Z :=
  for_ N (fun i r =>
    for_ N (fun j r =>
      let k := i + j in
      let product := rd a i * rd b j in
      let '(k, product) :=
        if k >=? Z.of_nat N then (k - Z.of_nat N, - product)
        else (k, product) in
      wr r k (reduce_mod_q (rd r k + product))) r)
    poly_zero.

(** [poly_power2round (t1, t0, t)]: the coefficients left in [t1] and in
    [t0]. *)
Definition poly_power2round (t : list Z) : list Z * list Z :=
  for_ N (fun i '(t1, t0) =>
    let c := rd t i in
    let mask := Z.shiftl 1 D - 1 in
    let t0 := wr t0 i (Z.land c mask) in
    let t1 := wr t1 i (Z.shiftr (c - rd t0 i) D) in
    (t1, t0))
    (repeat 0 N, repeat 0 N).

(** [result = A * s1]; [A[i][j]] is [(A !!! i) !!! j]. *)
Definition matrix_vector_multiply (A : list (list (list Z)))
    (s1 : list (list Z)) : list (list Z) :=
  for_ K (fun i result =>
    let result := <[Z.to_nat i := poly_zero]> result in
    for_ L (fun j result =>
      let temp := poly_multiply ((A !!! Z.to_nat i) !!! Z.to_nat j)
                                (s1 !!! Z.to_nat j) in
      <[Z.to_nat i := poly_add_inplace (result !!! Z.to_nat i) temp]> result)
      result)
    (repeat poly_zero K).

Record public_key : Type := mk_public_key
  { pk_seed : list Z;            (* uint8_t seed[SEEDBYTES] *)
    pk_t1 : list (list Z)        (* polyveck t1 *) }.

Record secret_key : Type := mk_secret_key
  { sk_seed : list Z;            (* uint8_t seed[SEEDBYTES] *)
    sk_s1 : list (list Z);       (* polyvecl s1 *)
    sk_s2 : list (list Z);       (* polyveck s2 *)
    sk_t0 : list (list Z)        (* polyveck t0 *) }.

(** [random_seed]; [rands] are the values the [SEEDBYTES] calls of
    [rand ()] return, in order. *)
Definition random_seed (rands : list Z) : list Z :=
  for_ SEEDBYTES (fun i seed => wr seed i (Z.land (rd rands i) 0xFF))
       (repeat 0 SEEDBYTES).

(** The vector [t = A * s1 + s2] of step 5. *)
Definition keygen_t (A : list (list (list Z))) (s1 s2 : list (list Z))
    : list (list Z) :=
  for_ K (fun i t =>
    <[Z.to_nat i := poly_add_inplace (t !!! Z.to_nat i) (s2 !!! Z.to_nat i)]> t)
    (matrix_vector_multiply A s1).

(** [dilithium_keygen], as a function of what [rand ()] returns during
    the two [random_seed] calls. *)
Definition dilithium_keygen (rands1 rands2 : list Z)
    : option (public_key * secret_key) :=
  let seed := random_seed rands1 in
  let secret_seed := random_seed rands2 in
  A ← expand_matrix_a seed;
  s1 ← mapM (fun i => sample_small_poly secret_seed i) (seqZ 0 (Z.of_nat L));
  s2 ← mapM (fun i => sample_small_poly secret_seed (Z.of_nat L + i))
            (seqZ 0 (Z.of_nat K));
  let t := keygen_t A s1 s2 in
  let '(t1, t0) :=
    for_ K (fun i '(t1, t0) =>
      let '(p1, p0) := poly_power2round (t !!! Z.to_nat i) in
      (<[Z.to_nat i := p1]> t1, <[Z.to_nat i := p0]> t0))
      (repeat poly_zero K, repeat poly_zero K) in
  Some (mk_public_key seed t1,
        mk_secret_key (take SEEDBYTES seed) s1 s2 t0).

(** Sums, and the coefficient [k] of the product of [a] and [b] modulo
    [x ^ N + 1]: the pairs with [i + j = k] count positively, those with
    [i + j = k + N] negatively. *)
Definition sumZ (n : nat) (f : Z -> Z) : Z :=
  for_ n (fun i acc => acc + f i) 0.

Definition negacyclic_coeff (a b : list Z) (k : Z) : Z :=
  sumZ N (fun i => sumZ N (fun j =>
    if i + j =? k then rd a i * rd b j
    else if i + j =? k + Z.of_nat N then - (rd a i * rd b j)
    else 0)).

End KeyGen.

Import Keccak.

(** ** The flat byte view: reads after writes *)

Lemma lane_byte_same (w k v : Z) :
  0 <= k -> Z.land (Z.shiftr (lane_put w k v) k) 0xFF = Z.land v 0xFF.
Proof.
  intros Hk. unfold lane_put. change 255 with (Z.ones 8). Z.bitblast.
Qed.

Lemma lane_byte_other (w k k' v : Z) :
  0 <= k -> 0 <= k' -> k + 8 <= k' \/ k' + 8 <= k ->
  Z.land (Z.shiftr (lane_put w k v) k') 0xFF = Z.land (Z.shiftr w k') 0xFF.
Proof.
  intros Hk Hk' Hd. unfold lane_put. change 255 with (Z.ones 8). Z.bitblast.
Qed.

Lemma byte_xor_mask (a v : Z) :
  Z.land (Z.lxor (Z.land a 0xFF) v) 0xFF = Z.lxor (Z.land a 0xFF) (Z.land v 0xFF).
Proof. change 255 with (Z.ones 8). Z.bitblast. Qed.

Lemma set_byte_outside (st : list Z) (p v : Z) :
  (length st <= Z.to_nat (p / 8))%nat -> set_byte st p v = st.
Proof.
  intros Hge. unfold set_byte. apply list_eq. intros j.
  rewrite list_lookup_alter. destruct (decide (Z.to_nat (p / 8) = j)) as [<-|]; [|done].
  rewrite (lookup_ge_None_2 st (Z.to_nat (p / 8)) Hge). done.
Qed.

Lemma get_set_byte_same (st : list Z) (p v : Z) :
  0 <= p -> (Z.to_nat (p / 8) < length st)%nat ->
  get_byte (set_byte st p v) p = Z.land v 0xFF.
Proof.
  intros Hp Hin. unfold get_byte, set_byte, rd.
  rewrite list_lookup_total_alter_eq by exact Hin.
  apply lane_byte_same. pose proof (Z.mod_pos_bound p 8). lia.
Qed.

Lemma get_set_byte_other (st : list Z) (p q v : Z) :
  0 <= p -> 0 <= q -> p <> q ->
  get_byte (set_byte st p v) q = get_byte st q.
Proof.
  intros Hp Hq Hne.
  destruct (le_lt_dec (length st) (Z.to_nat (p / 8))) as [Hout|Hin].
  { rewrite set_byte_outside by exact Hout. reflexivity. }
  unfold get_byte, set_byte, rd.
  destruct (decide (Z.to_nat (p / 8) = Z.to_nat (q / 8))) as [Heq|Hlane].
  - rewrite <- Heq.
    rewrite list_lookup_total_alter_eq by exact Hin.
    assert (p / 8 = q / 8) by (apply Z2Nat.inj; [apply Z.div_pos; lia .. | exact Heq]).
    pose proof (Z.div_mod p 8 ltac:(lia)). pose proof (Z.div_mod q 8 ltac:(lia)).
    pose proof (Z.mod_pos_bound p 8 ltac:(lia)).
    pose proof (Z.mod_pos_bound q 8 ltac:(lia)).
    apply lane_byte_other; lia.
  - rewrite list_lookup_total_alter_ne by exact Hlane. reflexivity.
Qed.

Lemma get_xor_byte_same (st : list Z) (p v : Z) :
  0 <= p -> (Z.to_nat (p / 8) < length st)%nat ->
  get_byte (xor_byte st p v) p = Z.lxor (get_byte st p) (Z.land v 0xFF).
Proof.
  intros Hp Hin. unfold xor_byte. rewrite get_set_byte_same by assumption.
  unfold get_byte. apply byte_xor_mask.
Qed.

Lemma get_xor_byte_other (st : list Z) (p q v : Z) :
  0 <= p -> 0 <= q -> p <> q ->
  get_byte (xor_byte st p v) q = get_byte st q.
Proof. intros. unfold xor_byte. apply get_set_byte_other; assumption. Qed.

Lemma xor_byte_length (st : list Z) (p v : Z) :
  length (xor_byte st p v) = length st.
Proof. unfold xor_byte, set_byte. apply length_alter. Qed.

(** Flat index [p] lies in a 25-lane array exactly when [p < 200]. *)
Lemma flat_index_in_state (st : list Z) (p : Z) :
  length st = STATE_SIZE -> 0 <= p < 200 ->
  (Z.to_nat (p / 8) < length st)%nat.
Proof.
  intros Hlen Hp. rewrite Hlen. unfold STATE_SIZE.
  assert (0 <= p / 8 < 25) by (split; [apply Z.div_pos; lia | apply Z.div_lt_upper_bound; lia]).
  lia.
Qed.


(** ** Known vectors *)

(** C1. For the empty input and 32 output bytes, [shake128] returns the
    published SHAKE-128 vector 7f9c2ba4...fa66ef26 and [shake256] the
    published SHAKE-256 vector 46b9dd2b...6ed5762f, with the state read
    through the little-endian byte view. *)
Theorem shake_empty_message_vectors :
  shake128 32 [] =
    [0x7f; 0x9c; 0x2b; 0xa4; 0xe8; 0x8f; 0x82; 0x7d;
     0x61; 0x60; 0x45; 0x50; 0x76; 0x05; 0x85; 0x3e;
     0xd7; 0x3b; 0x80; 0x93; 0xf6; 0xef; 0xbc; 0x88;
     0xeb; 0x1a; 0x6e; 0xac; 0xfa; 0x66; 0xef; 0x26] /\
  shake256 32 [] =
    [0x46; 0xb9; 0xdd; 0x2b; 0x0b; 0xa8; 0x8d; 0x13;
     0x23; 0x3b; 0x3f; 0xeb; 0x74; 0x3e; 0xeb; 0x24;
     0x3f; 0xcd; 0x52; 0xea; 0x62; 0xb8; 0x1b; 0x82;
     0xb5; 0x0c; 0x27; 0x64; 0x6e; 0xd5; 0x76; 0x2f].
Proof. split; vm_compute; reflexivity. Qed.

(** ** Construction *)

(** C4, as the claim states it, fails: the selector 512 yields the same
    ready-to-use engine as 128, with the SHAKE-128 rate, and hashing with
    it gives the SHAKE-128 output. *)
Lemma shake_init_invalid_variant_usable :
  shake_init 512 = shake_init 128 /\
  rate (shake_init 512) = SHAKE128_RATE /\
  forall (m : list Z) (n : nat),
    snd (shake_squeeze (shake_finalize (shake_absorb (shake_init 512) m)) n) =
      shake128 n m.
Proof.
  assert (Hinit : shake_init 512 = shake_init 128) by reflexivity.
  split; [exact Hinit|]. split; [reflexivity|].
  intros m n. unfold shake128. rewrite Hinit. reflexivity.
Qed.

(** C4, amended. For a selector other than 128 and 256, [shake_init]
    writes the diagnostic "Invalid SHAKE variant" on stderr and falls back
    to SHAKE-128: the context it leaves is the one of [shake_init 128],
    all lanes zero, rate 168, cursor 0. *)
Theorem shake_init_invalid_variant_fallback (shake_bits : Z) :
  shake_bits <> 128 -> shake_bits <> 256 ->
  shake_init_io shake_bits =
    (mk_keccak_state (repeat 0 STATE_SIZE) SHAKE128_RATE 0,
     ["Invalid SHAKE variant"%string]) /\
  shake_init shake_bits = shake_init 128.
Proof.
  intros H128 H256. unfold shake_init, shake_init_io.
  destruct (Z.eqb_spec shake_bits 128) as [->|_]; [contradiction|].
  destruct (Z.eqb_spec shake_bits 256) as [->|_]; [contradiction|].
  split; reflexivity.
Qed.

Lemma shake_init_invalid_variant_fallback_witness :
  512 <> 128 /\ 512 <> 256 /\
  shake_init_io 512 =
    (mk_keccak_state (repeat 0 STATE_SIZE) SHAKE128_RATE 0,
     ["Invalid SHAKE variant"%string]).
Proof.
  split; [lia|]. split; [lia|].
  apply (shake_init_invalid_variant_fallback 512); lia.
Defined.

(** ** Squeezing *)

Lemma squeeze_prefix (n1 : nat) :
  forall (ctx : keccak_state) (n2 : nat),
    (n1 <= n2)%nat ->
    firstn n1 (snd (shake_squeeze ctx n2)) = snd (shake_squeeze ctx n1).
Proof.
  induction n1 as [|n1 IH]; intros ctx n2 Hle; [reflexivity|].
  destruct n2 as [|n2]; [lia|].
  cbn [shake_squeeze].
  specialize (IH (mk_keccak_state (state (squeeze_refill ctx))
                    (rate (squeeze_refill ctx))
                    (wrap64 (absorb_pos (squeeze_refill ctx) + 1))) n2).
  do 2 destruct (shake_squeeze _ _).
  cbn [snd firstn] in *. f_equal. apply IH. lia.
Qed.

Lemma squeeze_length (n : nat) :
  forall ctx : keccak_state, length (snd (shake_squeeze ctx n)) = n.
Proof.
  induction n as [|n IH]; intros ctx; [reflexivity|].
  cbn [shake_squeeze].
  specialize (IH (mk_keccak_state (state (squeeze_refill ctx))
                    (rate (squeeze_refill ctx))
                    (wrap64 (absorb_pos (squeeze_refill ctx) + 1)))).
  destruct (shake_squeeze _ _). cbn [snd length] in *. congruence.
Qed.

Lemma shake128_prefix (m : list Z) (n1 n2 : nat) :
  (n1 <= n2)%nat -> firstn n1 (shake128 n2 m) = shake128 n1 m.
Proof. intros Hle. unfold shake128. apply squeeze_prefix, Hle. Qed.

Lemma shake256_prefix (m : list Z) (n1 n2 : nat) :
  (n1 <= n2)%nat -> firstn n1 (shake256 n2 m) = shake256 n1 m.
Proof. intros Hle. unfold shake256. apply squeeze_prefix, Hle. Qed.

(** Two values differ when [f] maps them to different integers. *)
Ltac differ_by f :=
  let Heq := fresh "Heq" in
  let Hb := fresh "Hb" in
  intros Heq; apply (f_equal f) in Heq; cbv beta in Heq;
  match type of Heq with
  | ?a = ?b =>
      assert (Hb : (a =? b) = false) by (vm_compute; reflexivity);
      rewrite Heq, Z.eqb_refl in Hb; discriminate Hb
  end.

(** C5. Prefix property: for every input [m] and [n1 <= n2], the first
    [n1] bytes of the [n2]-byte output equal the [n1]-byte output, for
    [shake128] and for [shake256]. *)
Theorem shake_prefix_property (m : list Z) (n1 n2 : nat) :
  (n1 <= n2)%nat ->
  firstn n1 (shake128 n2 m) = shake128 n1 m /\
  firstn n1 (shake256 n2 m) = shake256 n1 m.
Proof.
  intros Hle. split; [apply shake128_prefix|apply shake256_prefix]; exact Hle.
Qed.

Lemma shake_prefix_property_witness :
  (16 <= 256)%nat /\
  firstn 16 (shake128 256 [0x48; 0x65; 0x6c; 0x6c; 0x6f]) =
    shake128 16 [0x48; 0x65; 0x6c; 0x6c; 0x6f].
Proof.
  split; [lia|].
  exact (proj1 (shake_prefix_property [0x48; 0x65; 0x6c; 0x6c; 0x6f] 16 256
                  ltac:(lia))).
Defined.

(** ** Absorbing *)

Lemma shake_absorb_app (ctx : keccak_state) (m1 m2 : list Z) :
  shake_absorb ctx (m1 ++ m2) = shake_absorb (shake_absorb ctx m1) m2.
Proof. unfold shake_absorb. apply fold_left_app. Qed.

Lemma shake_absorb_chunks (chunks : list (list Z)) :
  forall ctx : keccak_state,
    fold_left shake_absorb chunks ctx = shake_absorb ctx (concat chunks).
Proof.
  induction chunks as [|m ms IH]; intros ctx; [reflexivity|].
  cbn [fold_left concat]. rewrite IH, shake_absorb_app. reflexivity.
Qed.

(** C6. Chunk-invariance of absorb: absorbing [m1 ++ m2] in one call
    leaves the same context (lanes, rate and cursor) as absorbing [m1] and
    then [m2]; absorbing the pieces of any partition in successive calls
    leaves the same context as absorbing their concatenation; hence the
    bytes squeezed after [shake_finalize] are the same, and they are the
    one-shot output for either variant. *)
Theorem shake_absorb_chunk_invariance
    (ctx : keccak_state) (m1 m2 : list Z) (chunks : list (list Z)) (n : nat) :
  shake_absorb ctx (m1 ++ m2) = shake_absorb (shake_absorb ctx m1) m2 /\
  fold_left shake_absorb chunks ctx = shake_absorb ctx (concat chunks) /\
  snd (shake_squeeze
         (shake_finalize (fold_left shake_absorb chunks (shake_init 128))) n)
    = shake128 n (concat chunks) /\
  snd (shake_squeeze
         (shake_finalize (fold_left shake_absorb chunks (shake_init 256))) n)
    = shake256 n (concat chunks).
Proof.
  split; [apply shake_absorb_app|].
  split; [apply shake_absorb_chunks|].
  unfold shake128, shake256. rewrite !shake_absorb_chunks. split; reflexivity.
Qed.

(** ** Loops *)

Lemma fold_for_invariant {A : Type} (P : A -> Prop) (body : Z -> A -> A)
    (l : list nat) :
  (forall i a, P a -> P (body i a)) ->
  forall a, P a -> P (fold_left (fun acc i => body (Z.of_nat i) acc) l a).
Proof.
  intros Hstep. induction l as [|i l IH]; intros a Ha; [exact Ha|].
  cbn [fold_left]. apply IH, Hstep, Ha.
Qed.

Lemma for_invariant {A : Type} (P : A -> Prop) (n : nat) (body : Z -> A -> A)
    (a : A) :
  P a -> (forall i a, P a -> P (body i a)) -> P (for_ n body a).
Proof. intros Ha Hstep. unfold for_. apply fold_for_invariant; assumption. Qed.

Lemma for_log_fst {A L : Type} (n : nat) (body_log : Z -> A -> A * list L)
    (body : Z -> A -> A) (a : A) :
  (forall i a, fst (body_log i a) = body i a) ->
  fst (for_log n body_log a) = for_ n body a.
Proof.
  intros Hbody. unfold for_log, for_. generalize (@nil L) as l0.
  revert a. induction (seq 0 n) as [|i l IH]; intros a l0; [reflexivity|].
  cbn [fold_left]. rewrite <- (Hbody (Z.of_nat i) a).
  cbn [fst]. destruct (body_log (Z.of_nat i) a) as [r lg]. apply IH.
Qed.

(** When the logged entries, seen through [g], do not depend on the data,
    the log of the loop is the concatenation of the per-iteration logs. *)
Lemma for_log_snd {A L M : Type} (g : L -> M) (h : Z -> list M) (n : nat)
    (body_log : Z -> A -> A * list L) (a : A) :
  (forall i a, map g (snd (body_log i a)) = h i) ->
  map g (snd (for_log n body_log a)) =
    flat_map (fun i => h (Z.of_nat i)) (seq 0 n).
Proof.
  intros Hbody. unfold for_log.
  change (flat_map (fun i => h (Z.of_nat i)) (seq 0 n))
    with (map g (@nil L) ++ flat_map (fun i => h (Z.of_nat i)) (seq 0 n)).
  generalize (@nil L) as l0. revert a.
  induction (seq 0 n) as [|i l IH]; intros a l0.
  - cbn. rewrite app_nil_r. reflexivity.
  - cbn [fold_left flat_map fst snd]. specialize (Hbody (Z.of_nat i) a).
    destruct (body_log (Z.of_nat i) a) as [r lg]. cbn [snd] in Hbody.
    rewrite IH, map_app, Hbody, <- app_assoc. reflexivity.
Qed.

(** ** The permutation *)

Lemma wr_length (a : list Z) (i v : Z) : length (wr a i v) = length a.
Proof. apply length_insert. Qed.

Lemma keccak_round_length (round : Z) (st : list Z) :
  length (keccak_round round st) = length st.
Proof.
  unfold keccak_round, iota, chi, theta, theta_apply.
  rewrite wr_length.
  repeat (apply for_invariant; [|intros ? ? <-]); try reflexivity.
  all: rewrite ?wr_length; try reflexivity.
  all: repeat (apply for_invariant; [|intros ? ? <-]); rewrite ?wr_length;
    reflexivity.
Qed.

Lemma keccak_f1600_length (st : list Z) :
  length (keccak_f1600 st) = length st.
Proof.
  unfold keccak_f1600. apply for_invariant; [reflexivity|].
  intros i a <-. apply keccak_round_length.
Qed.

Lemma rotl64_0 (x : Z) : 0 <= x < 2 ^ 64 -> rotl64 x 0 = x.
Proof.
  intros Hx. unfold rotl64, wrap64. rewrite Z.shiftl_0_r, Z.sub_0_r.
  rewrite Z.mod_small by exact Hx.
  rewrite Z.shiftr_div_pow2, Z.div_small by lia. apply Z.lor_0_r.
Qed.

(** With the shift count masked to six bits the rotation by 0 is the
    identity as well, and for the other counts the two readings of the
    expression are the same. *)
Lemma rotl64_masked_agrees (x n : Z) :
  0 <= x < 2 ^ 64 -> 0 <= n < 64 -> rotl64_masked x n = rotl64 x n.
Proof.
  intros Hx Hn. destruct (Z.eq_dec n 0) as [->|Hn0].
  - rewrite rotl64_0 by exact Hx. unfold rotl64_masked, wrap64.
    change ((64 - 0) mod 64) with 0. change (0 mod 64) with 0.
    rewrite Z.shiftl_0_r, Z.shiftr_0_r, Z.mod_small by exact Hx.
    apply Z.lor_diag.
  - unfold rotl64_masked, rotl64. rewrite !Z.mod_small by lia. reflexivity.
Qed.

Lemma theta_D_log_fst (C : list Z) : fst (theta_D_log C) = theta_D C.
Proof. unfold theta_D_log, theta_D. apply for_log_fst. reflexivity. Qed.

Lemma rho_pi_log_fst (st : list Z) : fst (rho_pi_log st) = rho_pi st.
Proof.
  unfold rho_pi_log, rho_pi. apply for_log_fst. intros x B.
  apply for_log_fst. reflexivity.
Qed.

Lemma keccak_round_log_fst (round : Z) (st : list Z) :
  fst (keccak_round_log round st) = keccak_round round st.
Proof.
  unfold keccak_round_log, keccak_round, theta.
  rewrite <- theta_D_log_fst.
  destruct (theta_D_log (theta_C st)) as [D l1]. cbn [fst].
  rewrite <- rho_pi_log_fst.
  destruct (rho_pi_log (theta_apply D st)) as [B l2]. reflexivity.
Qed.

Lemma keccak_f1600_log_fst (st : list Z) :
  fst (keccak_f1600_log st) = keccak_f1600 st.
Proof.
  unfold keccak_f1600_log, keccak_f1600. apply for_log_fst.
  apply keccak_round_log_fst.
Qed.

Lemma theta_D_log_counts (C : list Z) :
  map snd (snd (theta_D_log C)) = repeat 1 5.
Proof.
  unfold theta_D_log.
  erewrite (for_log_snd snd (fun _ => [1])); reflexivity.
Qed.

Lemma rho_pi_log_counts (st : list Z) :
  map snd (snd (rho_pi_log st)) =
    flat_map (fun x => map (fun y => rd keccak_rotations (idx x y)) (seqZ 0 5))
             (seqZ 0 5).
Proof.
  unfold rho_pi_log.
  erewrite (for_log_snd snd
              (fun x => map (fun y => rd keccak_rotations (idx x y)) (seqZ 0 5))).
  - reflexivity.
  - intros x B.
    erewrite (for_log_snd snd (fun y => [rd keccak_rotations (idx x y)]));
      reflexivity.
Qed.

Lemma keccak_round_log_counts (round : Z) (st : list Z) :
  map snd (snd (keccak_round_log round st)) = round_rotl64_counts.
Proof.
  unfold keccak_round_log, round_rotl64_counts.
  pose proof (theta_D_log_counts (theta_C st)) as HD.
  destruct (theta_D_log (theta_C st)) as [D l1].
  pose proof (rho_pi_log_counts (theta_apply D st)) as HB.
  destruct (rho_pi_log (theta_apply D st)) as [B l2]. cbn [snd] in *.
  rewrite map_app, HD, HB. reflexivity.
Qed.

(** C2 (the code departs from the claim). Every run of [keccak_f1600]
    evaluates [rotl64] with count 0: the counts of its [rotl64] calls are
    those of [round_rotl64_counts], 24 times over, whatever the state, and
    the sixth call of each round, for the lane at (0, 0), has count
    [keccak_rotations[0] = 0], so [x >> (64 - 0)] is evaluated.  All
    other counts lie strictly between 0 and 64. *)
Theorem keccak_f1600_rotl64_count_zero (st : list Z) :
  fst (keccak_f1600_log st) = keccak_f1600 st /\
  map snd (snd (keccak_f1600_log st)) =
    concat (repeat round_rotl64_counts KECCAK_ROUNDS) /\
  nth_error (map snd (snd (keccak_f1600_log st))) 5 = Some 0 /\
  ~ Forall (fun n => 0 < n < 64) (map snd (snd (keccak_f1600_log st))) /\
  Forall (fun n => 0 <= n < 64) (map snd (snd (keccak_f1600_log st))) /\
  length (filter (Z.eqb 0) (map snd (snd (keccak_f1600_log st)))) = KECCAK_ROUNDS.
Proof.
  assert (Hc : map snd (snd (keccak_f1600_log st)) =
               concat (repeat round_rotl64_counts KECCAK_ROUNDS)).
  { unfold keccak_f1600_log.
    rewrite (for_log_snd snd (fun _ => round_rotl64_counts) _ _ st
               (fun i a => keccak_round_log_counts i a)).
    vm_compute. reflexivity. }
  split; [apply keccak_f1600_log_fst|].
  split; [exact Hc|]. rewrite Hc.
  split; [vm_compute; reflexivity|].
  split.
  - intros HF.
    assert (H0 : 0 < 0 < 64); [|lia].
    apply (proj1 (List.Forall_forall _ _) HF). vm_compute. tauto.
  - split; [|vm_compute; reflexivity].
    apply List.Forall_forall. intros n Hin.
    assert (Hb : List.forallb (fun n => (0 <=? n) && (n <? 64))
                   (concat (repeat round_rotl64_counts KECCAK_ROUNDS)) = true)
      by (vm_compute; reflexivity).
    pose proof (proj1 (List.forallb_forall _ _) Hb n Hin) as Hn.
    cbv beta in Hn. apply andb_prop in Hn. destruct Hn as [Hlo Hhi].
    apply Z.leb_le in Hlo. apply Z.ltb_lt in Hhi. split; assumption.
Qed.

(** ** Invariants of the sponge *)

Lemma wrap64_small (x : Z) : 0 <= x < 2 ^ 64 -> wrap64 x = x.
Proof. intros Hx. unfold wrap64. apply Z.mod_small, Hx. Qed.

Lemma shake_init_rate (shake_bits : Z) :
  rate (shake_init shake_bits) = SHAKE128_RATE \/
  rate (shake_init shake_bits) = SHAKE256_RATE.
Proof.
  unfold shake_init, shake_init_io.
  destruct (shake_bits =? 128); [left; reflexivity|].
  destruct (shake_bits =? 256); [right|left]; reflexivity.
Qed.

Lemma shake_init_pos (shake_bits : Z) : absorb_pos (shake_init shake_bits) = 0.
Proof.
  unfold shake_init, shake_init_io.
  destruct (shake_bits =? 128); [|destruct (shake_bits =? 256)]; reflexivity.
Qed.

Lemma shake_init_inv (shake_bits : Z) : absorbing_inv (shake_init shake_bits).
Proof.
  unfold absorbing_inv, shake_init, shake_init_io.
  destruct (shake_bits =? 128); [|destruct (shake_bits =? 256)];
    cbn; unfold SHAKE128_RATE, SHAKE256_RATE; repeat split; lia.
Qed.

Lemma absorb_byte_rate (ctx : keccak_state) (b : Z) :
  rate (absorb_byte ctx b) = rate ctx.
Proof. unfold absorb_byte. destruct (_ =? _); reflexivity. Qed.

Lemma absorb_byte_pos (ctx : keccak_state) (b : Z) :
  absorbing_inv ctx ->
  absorb_pos (absorb_byte ctx b) = (absorb_pos ctx + 1) mod rate ctx.
Proof.
  intros (Hpos & Hrate & _). unfold absorb_byte.
  rewrite wrap64_small by lia.
  destruct (Z.eqb_spec (absorb_pos ctx + 1) (rate ctx)) as [Heq|Hne]; cbn.
  - rewrite Heq, Z.mod_same by lia. reflexivity.
  - rewrite Z.mod_small by lia. reflexivity.
Qed.

Lemma absorb_byte_inv (ctx : keccak_state) (b : Z) :
  absorbing_inv ctx -> absorbing_inv (absorb_byte ctx b).
Proof.
  intros Hinv. pose proof (absorb_byte_pos ctx b Hinv) as Hp.
  destruct Hinv as (Hpos & Hrate & Hlen). unfold absorbing_inv.
  rewrite Hp, absorb_byte_rate.
  split; [apply Z.mod_pos_bound; lia|]. split; [exact Hrate|].
  unfold absorb_byte. destruct (_ =? _); cbn [state];
    rewrite ?keccak_f1600_length, xor_byte_length; exact Hlen.
Qed.

Lemma shake_absorb_rate (input : list Z) :
  forall ctx : keccak_state, rate (shake_absorb ctx input) = rate ctx.
Proof.
  induction input as [|b input IH]; intros ctx; [reflexivity|].
  cbn [shake_absorb fold_left]. fold (shake_absorb (absorb_byte ctx b) input).
  rewrite IH. apply absorb_byte_rate.
Qed.

Lemma shake_absorb_inv (input : list Z) :
  forall ctx : keccak_state,
    absorbing_inv ctx -> absorbing_inv (shake_absorb ctx input).
Proof.
  induction input as [|b input IH]; intros ctx Hinv; [exact Hinv|].
  cbn [shake_absorb fold_left]. apply IH, absorb_byte_inv, Hinv.
Qed.

Lemma shake_absorb_pos (input : list Z) :
  forall ctx : keccak_state,
    absorbing_inv ctx ->
    absorb_pos (shake_absorb ctx input) =
      (absorb_pos ctx + Z.of_nat (length input)) mod rate ctx.
Proof.
  induction input as [|b input IH]; intros ctx Hinv.
  - cbn. rewrite Z.add_0_r, Z.mod_small; [reflexivity|apply Hinv].
  - cbn [shake_absorb fold_left]. fold (shake_absorb (absorb_byte ctx b) input).
    rewrite IH by (apply absorb_byte_inv, Hinv).
    rewrite absorb_byte_pos, absorb_byte_rate by exact Hinv.
    destruct Hinv as (Hpos & _).
    rewrite Zplus_mod_idemp_l. f_equal. cbn [length]. lia.
Qed.

Lemma absorb_calls_inv (chunks : list (list Z)) :
  forall ctx : keccak_state,
    absorbing_inv ctx -> absorbing_inv (fold_left shake_absorb chunks ctx).
Proof.
  induction chunks as [|m ms IH]; intros ctx Hinv; [exact Hinv|].
  cbn [fold_left]. apply IH, shake_absorb_inv, Hinv.
Qed.

Lemma absorb_calls_rate (chunks : list (list Z)) :
  forall ctx : keccak_state, rate (fold_left shake_absorb chunks ctx) = rate ctx.
Proof.
  induction chunks as [|m ms IH]; intros ctx; [reflexivity|].
  cbn [fold_left]. rewrite IH. apply shake_absorb_rate.
Qed.

Lemma shake_finalize_inv (ctx : keccak_state) :
  absorbing_inv ctx -> squeezing_inv (shake_finalize ctx).
Proof.
  intros (Hpos & Hrate & Hlen). unfold squeezing_inv, shake_finalize, finalize_pad.
  cbn [state rate absorb_pos].
  rewrite keccak_f1600_length, !xor_byte_length. repeat split; lia.
Qed.

Lemma squeeze_refill_inv (ctx : keccak_state) :
  squeezing_inv ctx ->
  0 <= absorb_pos (squeeze_refill ctx) < rate ctx /\
  rate (squeeze_refill ctx) = rate ctx /\
  length (state (squeeze_refill ctx)) = STATE_SIZE.
Proof.
  intros (Hpos & Hrate & Hlen). unfold squeeze_refill.
  destruct (Z.eqb_spec (absorb_pos ctx) (rate ctx)); cbn [state rate absorb_pos];
    rewrite ?keccak_f1600_length; repeat split; try lia; exact Hlen.
Qed.

Lemma shake_squeeze_inv (n : nat) :
  forall ctx : keccak_state,
    squeezing_inv ctx ->
    squeezing_inv (fst (shake_squeeze ctx n)) /\
    rate (fst (shake_squeeze ctx n)) = rate ctx.
Proof.
  induction n as [|n IH]; intros ctx Hinv; [split; [exact Hinv|reflexivity]|].
  cbn [shake_squeeze].
  destruct (squeeze_refill_inv ctx Hinv) as (Hpos & Hrate & Hlen).
  specialize (IH (mk_keccak_state (state (squeeze_refill ctx))
                    (rate (squeeze_refill ctx))
                    (wrap64 (absorb_pos (squeeze_refill ctx) + 1)))).
  destruct (shake_squeeze _ n) as [ctx3 out]. cbn [fst] in *.
  rewrite <- Hrate. apply IH.
  destruct Hinv as (_ & Hr & _). unfold squeezing_inv.
  cbn [state rate absorb_pos]. rewrite wrap64_small by lia.
  rewrite Hrate. repeat split; try lia; exact Hlen.
Qed.

(** C7. Padding lands in a fresh block: after any sequence of
    [shake_absorb] calls on a freshly initialised engine the cursor that
    [shake_finalize] finds satisfies [0 <= absorb_pos < rate]; it is the
    number of absorbed bytes modulo [rate], so an exact multiple of [rate]
    leaves it at 0; and for every non-zero output length the output for
    one rate-length block of zero bytes differs from the output for the
    empty input, for both variants. *)
Theorem padding_lands_in_fresh_block
    (shake_bits : Z) (chunks : list (list Z)) (n : nat) :
  let ctx := fold_left shake_absorb chunks (shake_init shake_bits) in
  0 <= absorb_pos ctx < rate ctx /\
  absorb_pos ctx = Z.of_nat (length (concat chunks)) mod rate ctx /\
  absorb_pos (shake_absorb (shake_init 128) (repeat 0 168)) = 0 /\
  absorb_pos (shake_absorb (shake_init 256) (repeat 0 136)) = 0 /\
  shake128 (S n) (repeat 0 168) <> shake128 (S n) [] /\
  shake256 (S n) (repeat 0 136) <> shake256 (S n) [].
Proof.
  intros ctx. subst ctx.
  split; [apply absorb_calls_inv, shake_init_inv|].
  split.
  { rewrite shake_absorb_chunks, shake_absorb_pos by apply shake_init_inv.
    rewrite shake_absorb_rate, shake_init_pos. reflexivity. }
  split; [vm_compute; reflexivity|].
  split; [vm_compute; reflexivity|].
  split; intros Heq; apply (f_equal (firstn 1)) in Heq.
  - rewrite !(shake128_prefix _ 1 (S n)) in Heq by lia.
    revert Heq. differ_by (fun out : list Z => nth 0 out 0).
  - rewrite !(shake256_prefix _ 1 (S n)) in Heq by lia.
    revert Heq. differ_by (fun out : list Z => nth 0 out 0).
Qed.

(** C8. When [shake_finalize] runs with [absorb_pos = rate - 1], the
    suffix byte 0x1F and the terminator 0x80 are both XORed into the last
    byte of the rate region: just before the final permutation that byte
    is 0x1F xor 0x80 xor its previous value, that is the previous value
    xor 0x9F. *)
Theorem finalize_last_byte_both_xors (ctx : keccak_state) :
  absorbing_inv ctx ->
  absorb_pos ctx = rate ctx - 1 ->
  get_byte (finalize_pad ctx) (rate ctx - 1) =
    Z.lxor (Z.lxor 0x1F 0x80) (get_byte (state ctx) (rate ctx - 1)) /\
  get_byte (finalize_pad ctx) (rate ctx - 1) =
    Z.lxor (get_byte (state ctx) (rate ctx - 1)) 0x9F /\
  state (shake_finalize ctx) = keccak_f1600 (finalize_pad ctx).
Proof.
  intros (Hpos & Hrate & Hlen) Hlast.
  assert (Hb : get_byte (finalize_pad ctx) (rate ctx - 1) =
               Z.lxor (get_byte (state ctx) (rate ctx - 1)) 0x9F).
  { unfold finalize_pad. rewrite Hlast, wrap64_small by lia.
    rewrite !get_xor_byte_same;
      rewrite ?xor_byte_length; try (apply flat_index_in_state; [exact Hlen|lia]);
      try lia.
    rewrite Z.lxor_assoc. reflexivity. }
  split; [|split; [exact Hb|reflexivity]].
  rewrite Hb, (Z.lxor_comm (Z.lxor 31 128)). reflexivity.
Qed.

Lemma finalize_last_byte_both_xors_witness :
  let ctx := mk_keccak_state (<[20%nat := 0xAB00000000000000]> (repeat 0 25))
                             168 167 in
  absorbing_inv ctx /\ absorb_pos ctx = rate ctx - 1 /\
  get_byte (finalize_pad ctx) 167 = Z.lxor 0xAB 0x9F.
Proof.
  intros ctx.
  assert (Hinv : absorbing_inv ctx).
  { unfold absorbing_inv. cbn. repeat split; lia. }
  split; [exact Hinv|]. split; [reflexivity|].
  exact (proj1 (proj2 (finalize_last_byte_both_xors ctx Hinv eq_refl))).
Defined.

(** ** The engine has no phase *)

(** C3, as the claim states it, fails: on the finalized SHAKE-128 engine
    of the empty message a second [shake_finalize] and a [shake_absorb]
    both return normally with changed lanes, and the 32 bytes squeezed
    after the second [shake_finalize] are not those squeezed after the
    first. *)
Lemma finalized_engine_is_altered :
  let c := shake_finalize (shake_init 128) in
  shake_finalize c <> c /\
  shake_absorb c [0x41] <> c /\
  snd (shake_squeeze (shake_finalize c) 32) <> snd (shake_squeeze c 32).
Proof.
  intros c. repeat split.
  - differ_by (fun x : keccak_state => get_byte (state x) 0).
  - differ_by (fun x : keccak_state => get_byte (state x) 0).
  - differ_by (fun out : list Z => nth 0 out 0).
Qed.

Lemma squeeze_calls_inv (outs : list nat) :
  forall ctx : keccak_state,
    squeezing_inv ctx ->
    squeezing_inv (squeeze_calls ctx outs) /\
    rate (squeeze_calls ctx outs) = rate ctx.
Proof.
  induction outs as [|n ns IH]; intros ctx Hinv; [split; [exact Hinv|reflexivity]|].
  cbn [squeeze_calls].
  destruct (shake_squeeze_inv n ctx Hinv) as [Hinv' Hrate].
  destruct (IH _ Hinv') as [Hinv'' Hrate'].
  split; [exact Hinv''|congruence].
Qed.

Lemma session_inv (shake_bits : Z) (chunks : list (list Z)) (outs : list nat) :
  squeezing_inv (session shake_bits chunks outs) /\
  rate (session shake_bits chunks outs) = rate (shake_init shake_bits).
Proof.
  unfold session.
  pose proof (absorb_calls_inv chunks _ (shake_init_inv shake_bits)) as H1.
  destruct (squeeze_calls_inv outs _ (shake_finalize_inv _ H1)) as [Hinv Hrate].
  split; [exact Hinv|]. rewrite Hrate. cbn [shake_finalize rate].
  apply absorb_calls_rate.
Qed.

(** [shake_absorb] where no block boundary is met: the cursor is below
    the end of the block and stays there, or it is at (or past) the end,
    where the test [absorb_pos == rate] never succeeds again. *)
Lemma absorb_no_boundary (m : list Z) (c : keccak_state) :
  length (state c) = STATE_SIZE -> 0 <= absorb_pos c ->
  absorb_pos c + Z.of_nat (length m) < rate c \/ rate c <= absorb_pos c ->
  absorb_pos c + Z.of_nat (length m) <= 200 ->
  length (state (shake_absorb c m)) = STATE_SIZE /\
  absorb_pos (shake_absorb c m) = absorb_pos c + Z.of_nat (length m) /\
  rate (shake_absorb c m) = rate c /\
  forall q : Z, 0 <= q < 200 ->
    get_byte (state (shake_absorb c m)) q =
      Z.lxor (get_byte (state c) q)
             (if (absorb_pos c <=? q) && (q <? absorb_pos c + Z.of_nat (length m))
              then Z.land (m !!! Z.to_nat (q - absorb_pos c)) 0xFF else 0).
Proof.
  intros Hlanes Hp0. induction m as [|b m IH] using rev_ind; intros Hnb H200.
  - cbn [shake_absorb fold_left length]. change (Z.of_nat 0) with 0.
    rewrite Z.add_0_r. repeat split; try assumption. intros q Hq.
    destruct (Z.leb_spec (absorb_pos c) q), (Z.ltb_spec q (absorb_pos c));
      try lia; cbn [andb]; rewrite Z.lxor_0_r; reflexivity.
  - rewrite length_app in *. cbn [length] in *.
    destruct (IH ltac:(lia) ltac:(lia)) as (Hl1 & Hp1 & Hr1 & Hb1). clear IH.
    rewrite shake_absorb_app. cbn [shake_absorb fold_left].
    fold (shake_absorb c m) in *. set (c1 := shake_absorb c m) in *.
    unfold absorb_byte. rewrite Hp1, Hr1, wrap64_small by lia.
    destruct (Z.eqb_spec (absorb_pos c + Z.of_nat (length m) + 1) (rate c));
      [lia|].
    cbn [state absorb_pos rate]. rewrite xor_byte_length.
    split; [exact Hl1|]. split; [lia|]. split; [reflexivity|].
    intros q Hq.
    destruct (Z.eq_dec q (absorb_pos c + Z.of_nat (length m))) as [->|Hne].
    + rewrite get_xor_byte_same
        by first [lia | apply flat_index_in_state; [exact Hl1|lia]].
      rewrite Hb1 by lia.
      destruct (Z.leb_spec (absorb_pos c) (absorb_pos c + Z.of_nat (length m)));
        [|lia].
      destruct (Z.ltb_spec (absorb_pos c + Z.of_nat (length m))
                           (absorb_pos c + Z.of_nat (length m))); [lia|].
      destruct (Z.ltb_spec (absorb_pos c + Z.of_nat (length m))
                           (absorb_pos c + Z.of_nat (length m + 1))); [|lia].
      cbn [andb]. rewrite Z.lxor_0_r. f_equal. f_equal.
      replace (Z.to_nat (absorb_pos c + Z.of_nat (length m) - absorb_pos c))
        with (length m) by lia.
      rewrite lookup_total_app_r by lia. rewrite Nat.sub_diag. reflexivity.
    + rewrite get_xor_byte_other by lia. rewrite Hb1 by exact Hq.
      f_equal.
      destruct (Z.leb_spec (absorb_pos c) q),
               (Z.ltb_spec q (absorb_pos c + Z.of_nat (length m))),
               (Z.ltb_spec q (absorb_pos c + Z.of_nat (length m + 1)));
        try lia; cbn [andb]; try reflexivity.
      rewrite lookup_total_app_l by lia. reflexivity.
Qed.

Lemma finalize_pad_bytes (c : keccak_state) (q : Z) :
  length (state c) = STATE_SIZE ->
  0 <= absorb_pos c < 200 -> 0 < rate c <= 200 -> 0 <= q < 200 ->
  get_byte (finalize_pad c) q =
    Z.lxor (Z.lxor (get_byte (state c) q)
                   (if q =? absorb_pos c then 0x1F else 0))
           (if q =? rate c - 1 then 0x80 else 0).
Proof.
  intros Hlanes Hp Hr Hq. unfold finalize_pad. rewrite wrap64_small by lia.
  destruct (Z.eqb_spec q (rate c - 1)) as [->|Hne1].
  - rewrite get_xor_byte_same
      by first [lia | rewrite xor_byte_length; apply flat_index_in_state;
                        [exact Hlanes|lia]].
    change (Z.land 128 255) with 128. f_equal.
    destruct (Z.eqb_spec (rate c - 1) (absorb_pos c)) as [Heq|Hne].
    + rewrite Heq. rewrite get_xor_byte_same
        by first [lia | apply flat_index_in_state; [exact Hlanes|lia]].
      reflexivity.
    + rewrite get_xor_byte_other by lia. rewrite Z.lxor_0_r. reflexivity.
  - rewrite get_xor_byte_other by lia. rewrite Z.lxor_0_r.
    destruct (Z.eqb_spec q (absorb_pos c)) as [->|Hne].
    + rewrite get_xor_byte_same
        by first [lia | apply flat_index_in_state; [exact Hlanes|lia]].
      reflexivity.
    + rewrite get_xor_byte_other by lia. rewrite Z.lxor_0_r. reflexivity.
Qed.

(** C3, amended. The context carries no phase and the operations return
    no error.  Let [c] be an engine that was finalized after any absorb
    calls and then squeezed any number of times, with cursor [p] (0 right
    after [shake_finalize], otherwise where the last [shake_squeeze]
    stopped, [0 <= p <= rate]) and rate [r] (168 or 136).
    - [shake_absorb (c, m)] runs: when no block boundary is met
      ([p + length m < r], or [p = r] after a squeeze that used up the
      block) it XORs byte [i] of [m] into byte [p + i] of the lanes,
      leaves all other bytes, and advances the cursor to [p + length m].
    - A second [shake_finalize (c)] runs: it XORs 0x1F into byte [p] and
      0x80 into byte [r - 1] of the lanes, applies [keccak_f1600] again
      and leaves the cursor at 0. *)
Theorem finalized_engine_accepts_calls
    (shake_bits : Z) (chunks : list (list Z)) (outs : list nat)
    (m : list Z) (q : Z) :
  let c := session shake_bits chunks outs in
  let p := absorb_pos c in
  let r := rate c in
  (r = SHAKE128_RATE \/ r = SHAKE256_RATE) /\
  0 <= p <= r /\
  (outs = [] -> p = 0) /\
  (p + Z.of_nat (length m) < r \/ p = r ->
   p + Z.of_nat (length m) <= 200 -> 0 <= q < 200 ->
   absorb_pos (shake_absorb c m) = p + Z.of_nat (length m) /\
   rate (shake_absorb c m) = r /\
   get_byte (state (shake_absorb c m)) q =
     Z.lxor (get_byte (state c) q)
            (if (p <=? q) && (q <? p + Z.of_nat (length m))
             then Z.land (m !!! Z.to_nat (q - p)) 0xFF else 0)) /\
  shake_finalize c = mk_keccak_state (keccak_f1600 (finalize_pad c)) r 0 /\
  (0 <= q < 200 ->
   get_byte (finalize_pad c) q =
     Z.lxor (Z.lxor (get_byte (state c) q) (if q =? p then 0x1F else 0))
            (if q =? r - 1 then 0x80 else 0)).
Proof.
  intros c p r.
  destruct (session_inv shake_bits chunks outs) as [(Hpos & Hrate & Hlanes) Hr].
  fold c in Hpos, Hrate, Hlanes, Hr. fold p in Hpos. fold r in Hrate, Hr.
  assert (Hr' : r = SHAKE128_RATE \/ r = SHAKE256_RATE)
    by (rewrite Hr; apply shake_init_rate).
  assert (Hr168 : r <= 168)
    by (destruct Hr' as [-> | ->]; unfold SHAKE128_RATE, SHAKE256_RATE; lia).
  split; [exact Hr'|]. split; [exact Hpos|].
  split; [intros ->; reflexivity|].
  split; [|split; [reflexivity|]].
  - intros Hnb H200 Hq.
    destruct (absorb_no_boundary m c Hlanes ltac:(lia)) as (_ & Hp' & Hr'' & Hb).
    + fold p r. destruct Hnb as [Hlt|Heq]; [left; exact Hlt|right; lia].
    + exact H200.
    + split; [exact Hp'|]. split; [exact Hr''|]. apply Hb, Hq.
  - intros Hq. apply finalize_pad_bytes; fold p r; try assumption; lia.
Qed.

Lemma finalized_engine_accepts_calls_witness :
  let c := session 128 [[0x41]] [5%nat] in
  (absorb_pos c + Z.of_nat (length [1; 2; 3]) < rate c \/
   absorb_pos c = rate c) /\
  absorb_pos c + Z.of_nat (length [1; 2; 3]) <= 200 /\ 0 <= 6 < 200 /\
  get_byte (state (shake_absorb c [1; 2; 3])) 6 =
    Z.lxor (get_byte (state c) 6) 2 /\
  get_byte (finalize_pad c) 5 = Z.lxor (get_byte (state c) 5) 0x1F.
Proof.
  intros c.
  assert (Hp : absorb_pos c = 5) by (vm_compute; reflexivity).
  assert (Hr : rate c = 168) by (vm_compute; reflexivity).
  assert (Hnb : absorb_pos c + Z.of_nat (length [1; 2; 3]) < rate c \/
                absorb_pos c = rate c)
    by (left; rewrite Hp, Hr; cbn [length]; lia).
  assert (H200 : absorb_pos c + Z.of_nat (length [1; 2; 3]) <= 200)
    by (rewrite Hp; cbn [length]; lia).
  split; [exact Hnb|]. split; [exact H200|]. split; [lia|].
  pose proof (finalized_engine_accepts_calls 128 [[0x41]] [5%nat] [1; 2; 3] 6)
    as (_ & _ & _ & Habs & _ & _).
  pose proof (finalized_engine_accepts_calls 128 [[0x41]] [5%nat] [1; 2; 3] 5)
    as (_ & _ & _ & _ & _ & Hfin).
  cbv zeta in Habs, Hfin. fold c in Habs, Hfin.
  destruct (Habs Hnb H200 ltac:(lia)) as (_ & _ & Hb).
  specialize (Hfin ltac:(lia)).
  rewrite Hp in Hb. rewrite Hp, Hr in Hfin.
  split.
  - rewrite Hb. reflexivity.
  - rewrite Hfin. cbn [Z.eqb Z.sub Z.add Z.opp Z.pos_sub Pos.eqb].
    rewrite Z.lxor_0_r. reflexivity.
Defined.

(** ** Byte accesses of the sponge operations *)

Lemma absorb_byte_steps_replay (ctx : keccak_state) (b : Z) :
  fold_left run_step (absorb_byte_steps ctx b) (state ctx) =
    state (absorb_byte ctx b).
Proof.
  unfold absorb_byte_steps, absorb_byte.
  destruct (wrap64 (absorb_pos ctx + 1) =? rate ctx);
    cbn [app fold_left run_step state]; reflexivity.
Qed.

Lemma shake_absorb_steps_replay (input : list Z) :
  forall ctx : keccak_state,
    fold_left run_step (shake_absorb_steps ctx input) (state ctx) =
      state (shake_absorb ctx input).
Proof.
  induction input as [|b input IH]; intros ctx; [reflexivity|].
  cbn [shake_absorb_steps shake_absorb fold_left].
  rewrite fold_left_app, absorb_byte_steps_replay. apply IH.
Qed.

Lemma shake_absorb_steps_in_rate (input : list Z) :
  forall ctx : keccak_state,
    absorbing_inv ctx ->
    Forall (in_rate (rate ctx)) (shake_absorb_steps ctx input).
Proof.
  induction input as [|b input IH]; intros ctx Hinv; [constructor|].
  cbn [shake_absorb_steps]. apply Forall_app. split.
  - unfold absorb_byte_steps. constructor; [apply Hinv|].
    destruct (_ =? _); repeat constructor.
  - rewrite <- (absorb_byte_rate ctx b). apply IH, absorb_byte_inv, Hinv.
Qed.

Lemma absorb_calls_steps_replay (chunks : list (list Z)) :
  forall ctx : keccak_state,
    fold_left run_step (absorb_calls_steps ctx chunks) (state ctx) =
      state (fold_left shake_absorb chunks ctx).
Proof.
  induction chunks as [|m ms IH]; intros ctx; [reflexivity|].
  cbn [absorb_calls_steps fold_left].
  rewrite fold_left_app, shake_absorb_steps_replay. apply IH.
Qed.

Lemma absorb_calls_steps_in_rate (chunks : list (list Z)) :
  forall ctx : keccak_state,
    absorbing_inv ctx ->
    Forall (in_rate (rate ctx)) (absorb_calls_steps ctx chunks).
Proof.
  induction chunks as [|m ms IH]; intros ctx Hinv; [constructor|].
  cbn [absorb_calls_steps]. apply Forall_app. split.
  - apply shake_absorb_steps_in_rate, Hinv.
  - rewrite <- (shake_absorb_rate m ctx). apply IH, shake_absorb_inv, Hinv.
Qed.

Lemma shake_finalize_steps_replay (ctx : keccak_state) :
  fold_left run_step (shake_finalize_steps ctx) (state ctx) =
    state (shake_finalize ctx).
Proof.
  unfold shake_finalize_steps, shake_finalize, finalize_pad.
  cbn [fold_left run_step state]. reflexivity.
Qed.

Lemma shake_finalize_steps_in_rate (ctx : keccak_state) :
  absorbing_inv ctx -> Forall (in_rate (rate ctx)) (shake_finalize_steps ctx).
Proof.
  intros (Hpos & Hrate & _). unfold shake_finalize_steps.
  repeat constructor; unfold in_rate; cbn [touched];
    rewrite ?wrap64_small by lia; lia.
Qed.

Lemma shake_squeeze_steps_replay (n : nat) :
  forall ctx : keccak_state,
    fold_left run_step (shake_squeeze_steps ctx n) (state ctx) =
      state (fst (shake_squeeze ctx n)).
Proof.
  induction n as [|n IH]; intros ctx; [reflexivity|].
  cbn [shake_squeeze_steps shake_squeeze].
  specialize (IH (mk_keccak_state (state (squeeze_refill ctx))
                    (rate (squeeze_refill ctx))
                    (wrap64 (absorb_pos (squeeze_refill ctx) + 1)))).
  destruct (shake_squeeze _ n) as [ctx3 out]. cbn [fst state] in *.
  rewrite fold_left_app. cbn [fold_left run_step]. rewrite <- IH.
  f_equal. unfold squeeze_refill.
  destruct (absorb_pos ctx =? rate ctx); cbn [fold_left run_step state];
    reflexivity.
Qed.

Lemma shake_squeeze_steps_in_rate (n : nat) :
  forall ctx : keccak_state,
    squeezing_inv ctx ->
    Forall (in_rate (rate ctx)) (shake_squeeze_steps ctx n).
Proof.
  induction n as [|n IH]; intros ctx Hinv; [constructor|].
  cbn [shake_squeeze_steps].
  destruct (squeeze_refill_inv ctx Hinv) as (Hpos & Hrate & Hlen).
  apply Forall_app. split; [destruct (_ =? _); repeat constructor|].
  constructor; [exact Hpos|].
  rewrite <- Hrate at 1.
  apply (IH (mk_keccak_state (state (squeeze_refill ctx))
               (rate (squeeze_refill ctx))
               (wrap64 (absorb_pos (squeeze_refill ctx) + 1)))).
  destruct Hinv as (_ & Hr & _). unfold squeezing_inv.
  cbn [state rate absorb_pos]. rewrite wrap64_small by lia.
  rewrite Hrate. repeat split; try lia; exact Hlen.
Qed.

Lemma squeeze_calls_steps_replay (outs : list nat) :
  forall ctx : keccak_state,
    fold_left run_step (squeeze_calls_steps ctx outs) (state ctx) =
      state (squeeze_calls ctx outs).
Proof.
  induction outs as [|n ns IH]; intros ctx; [reflexivity|].
  cbn [squeeze_calls_steps squeeze_calls].
  rewrite fold_left_app, shake_squeeze_steps_replay. apply IH.
Qed.

Lemma squeeze_calls_steps_in_rate (outs : list nat) :
  forall ctx : keccak_state,
    squeezing_inv ctx ->
    Forall (in_rate (rate ctx)) (squeeze_calls_steps ctx outs).
Proof.
  induction outs as [|n ns IH]; intros ctx Hinv; [constructor|].
  cbn [squeeze_calls_steps].
  destruct (shake_squeeze_inv n ctx Hinv) as (Hinv' & Hrate).
  apply Forall_app. split.
  - apply shake_squeeze_steps_in_rate, Hinv.
  - rewrite <- Hrate. apply IH, Hinv'.
Qed.

Lemma run_step_permute (st : list Z) :
  run_step st StPermute = keccak_f1600 st.
Proof. reflexivity. Qed.

Lemma run_step_read (st : list Z) (p : Z) : run_step st (StRead p) = st.
Proof. reflexivity. Qed.

Lemma read_step_fold (steps : list sponge_step) :
  forall (st acc : list Z),
    fold_left read_step steps (st, acc) =
      (fold_left run_step steps st, acc ++ run_steps_reads st steps).
Proof.
  unfold run_steps_reads.
  induction steps as [|s steps IH]; intros st acc.
  - cbn [fold_left snd]. rewrite app_nil_r. reflexivity.
  - cbn [fold_left]. unfold read_step at 2 4. cbn [fst snd].
    rewrite (IH (run_step st s)), (IH (run_step st s) ([] ++ _)).
    cbn [snd]. rewrite app_nil_l, app_assoc. reflexivity.
Qed.

Lemma run_steps_reads_cons (s : sponge_step) (steps : list sponge_step)
    (st : list Z) :
  run_steps_reads st (s :: steps) =
    match s with
    | StRead p => [get_byte st p]
    | _ => []
    end ++ run_steps_reads (run_step st s) steps.
Proof.
  unfold run_steps_reads at 1. cbn [fold_left]. unfold read_step at 2.
  cbn [fst snd]. rewrite read_step_fold. cbn [snd]. rewrite app_nil_l.
  reflexivity.
Qed.

Lemma run_steps_reads_app (l1 l2 : list sponge_step) :
  forall st : list Z,
    run_steps_reads st (l1 ++ l2) =
      run_steps_reads st l1 ++ run_steps_reads (fold_left run_step l1 st) l2.
Proof.
  intros st. unfold run_steps_reads at 1.
  rewrite fold_left_app, read_step_fold, read_step_fold.
  cbn [snd]. rewrite app_nil_l. reflexivity.
Qed.

Lemma shake_absorb_steps_reads (input : list Z) :
  forall (ctx : keccak_state) (st : list Z),
    run_steps_reads st (shake_absorb_steps ctx input) = [].
Proof.
  induction input as [|b input IH]; intros ctx st; [reflexivity|].
  cbn [shake_absorb_steps]. rewrite run_steps_reads_app, IH, app_nil_r.
  unfold absorb_byte_steps. destruct (_ =? _).
  - rewrite !run_steps_reads_cons. reflexivity.
  - rewrite !run_steps_reads_cons. reflexivity.
Qed.

Lemma absorb_calls_steps_reads (chunks : list (list Z)) :
  forall (ctx : keccak_state) (st : list Z),
    run_steps_reads st (absorb_calls_steps ctx chunks) = [].
Proof.
  induction chunks as [|m ms IH]; intros ctx st; [reflexivity|].
  cbn [absorb_calls_steps].
  rewrite run_steps_reads_app, IH, shake_absorb_steps_reads. reflexivity.
Qed.

Lemma shake_finalize_steps_reads (ctx : keccak_state) (st : list Z) :
  run_steps_reads st (shake_finalize_steps ctx) = [].
Proof.
  unfold shake_finalize_steps. rewrite !run_steps_reads_cons. reflexivity.
Qed.

Lemma squeeze_refill_steps (ctx : keccak_state) :
  fold_left run_step
    (if absorb_pos ctx =? rate ctx then [StPermute] else []) (state ctx) =
    state (squeeze_refill ctx) /\
  run_steps_reads (state ctx)
    (if absorb_pos ctx =? rate ctx then [StPermute] else []) = [].
Proof.
  unfold squeeze_refill. destruct (absorb_pos ctx =? rate ctx).
  - split; [cbn [fold_left run_step state]; reflexivity|].
    rewrite run_steps_reads_cons. reflexivity.
  - split; reflexivity.
Qed.

Lemma shake_squeeze_steps_reads (n : nat) :
  forall ctx : keccak_state,
    run_steps_reads (state ctx) (shake_squeeze_steps ctx n) =
      snd (shake_squeeze ctx n).
Proof.
  induction n as [|n IH]; intros ctx; [reflexivity|].
  cbn [shake_squeeze_steps shake_squeeze].
  destruct (squeeze_refill_steps ctx) as [Hst Hrd].
  set (ctx1 := squeeze_refill ctx) in *.
  set (ctx2 := mk_keccak_state (state ctx1) (rate ctx1)
                               (wrap64 (absorb_pos ctx1 + 1))).
  rewrite run_steps_reads_app, run_steps_reads_cons, run_step_read, Hst, Hrd.
  change (state ctx1) with (state ctx2) at 2.
  rewrite (IH ctx2). destruct (shake_squeeze ctx2 n) as [ctx3 out].
  reflexivity.
Qed.

Lemma squeeze_calls_steps_reads (outs : list nat) :
  forall ctx : keccak_state,
    run_steps_reads (state ctx) (squeeze_calls_steps ctx outs) =
      squeeze_calls_output ctx outs.
Proof.
  induction outs as [|n ns IH]; intros ctx; [reflexivity|].
  cbn [squeeze_calls_steps squeeze_calls_output].
  rewrite run_steps_reads_app, shake_squeeze_steps_reads,
    shake_squeeze_steps_replay, IH.
  reflexivity.
Qed.

Lemma session_steps_reads (shake_bits : Z) (chunks : list (list Z))
    (outs : list nat) :
  run_steps_reads (state (shake_init shake_bits))
                  (session_steps shake_bits chunks outs) =
    session_output shake_bits chunks outs.
Proof.
  unfold session_steps, session_output.
  rewrite !run_steps_reads_app, absorb_calls_steps_reads, app_nil_l.
  rewrite absorb_calls_steps_replay.
  set (c1 := fold_left shake_absorb chunks (shake_init shake_bits)).
  rewrite shake_finalize_steps_reads, app_nil_l, shake_finalize_steps_replay.
  apply squeeze_calls_steps_reads.
Qed.

Lemma session_output_one_shot (input : list Z) (outlen : nat) :
  session_output 128 [input] [outlen] = shake128 outlen input /\
  session_output 256 [input] [outlen] = Keccak.shake256 outlen input.
Proof.
  unfold session_output, shake128, Keccak.shake256.
  cbn [fold_left squeeze_calls_output]. rewrite !app_nil_r.
  split; reflexivity.
Qed.

(** C9, amended. In a run of the engine in call order ([shake_init], any
    [shake_absorb] calls, [shake_finalize], any [shake_squeeze] calls)
    the capacity region is touched by the permutation only: the lanes
    evolve by the logged steps, and the bytes the squeeze calls write to
    [output] are exactly the bytes the logged reads return, in order (for
    one absorb and one squeeze call these are the bytes of [shake128] and
    [shake256]); every logged byte read and byte XOR is at a flat index
    [p] with [0 <= p < rate], and [rate] is 168 or 136; such a read
    leaves the lanes as they are and such an XOR leaves every byte at an
    index [>= rate] as it is.  The remaining steps are calls of
    [keccak_f1600]. *)
Theorem capacity_touched_by_permutation_only
    (shake_bits : Z) (chunks : list (list Z)) (outs : list nat) :
  let r := rate (shake_init shake_bits) in
  let steps := session_steps shake_bits chunks outs in
  fold_left run_step steps (state (shake_init shake_bits)) =
    state (session shake_bits chunks outs) /\
  run_steps_reads (state (shake_init shake_bits)) steps =
    session_output shake_bits chunks outs /\
  (forall (input : list Z) (outlen : nat),
      session_output 128 [input] [outlen] = shake128 outlen input /\
      session_output 256 [input] [outlen] = Keccak.shake256 outlen input) /\
  Forall (in_rate r) steps /\
  (r = SHAKE128_RATE \/ r = SHAKE256_RATE) /\
  (forall (st : list Z) (p v j : Z),
      0 <= p < r -> r <= j ->
      run_step st (StRead p) = st /\
      get_byte (run_step st (StXor p v)) j = get_byte st j).
Proof.
  intros r steps. subst r steps.
  split; [|split; [apply session_steps_reads|]];
    [|split; [apply session_output_one_shot|]].
  { unfold session_steps, session.
    rewrite !fold_left_app, absorb_calls_steps_replay.
    rewrite shake_finalize_steps_replay. apply squeeze_calls_steps_replay. }
  unfold session_steps.
  set (c0 := shake_init shake_bits).
  set (c1 := fold_left shake_absorb chunks c0).
  assert (H0 : absorbing_inv c0) by apply shake_init_inv.
  assert (H1 : absorbing_inv c1) by apply absorb_calls_inv, H0.
  assert (Hr1 : rate c1 = rate c0) by apply absorb_calls_rate.
  split.
  { apply Forall_app. split; [apply absorb_calls_steps_in_rate, H0|].
    apply Forall_app. split.
    - rewrite <- Hr1. apply shake_finalize_steps_in_rate, H1.
    - rewrite <- Hr1. apply (squeeze_calls_steps_in_rate outs (shake_finalize c1)).
      apply shake_finalize_inv, H1. }
  split; [apply shake_init_rate|].
  intros st p v j Hp Hj. split; [reflexivity|].
  cbn [run_step]. apply get_xor_byte_other; lia.
Qed.

(** C9, as the claim states it, fails: the operations do not check the
    phase.  After [shake_squeeze] has read exactly [rate] bytes the cursor
    rests at [rate]; a [shake_absorb] issued then runs one byte XOR at
    flat index [rate = 168], the first byte of the capacity, without any
    permutation, and that byte changes. *)
Lemma absorb_after_squeeze_touches_capacity :
  let c := fst (shake_squeeze (shake_finalize (shake_init 128)) 168) in
  absorb_pos c = rate c /\
  shake_absorb_steps c [0x41] = [StXor 168 0x41] /\
  ~ Forall (in_rate (rate c)) (shake_absorb_steps c [0x41]) /\
  get_byte (state (shake_absorb c [0x41])) 168 <> get_byte (state c) 168.
Proof.
  intros c.
  assert (Hsteps : shake_absorb_steps c [0x41] = [StXor 168 0x41])
    by (vm_compute; reflexivity).
  split; [vm_compute; reflexivity|]. split; [exact Hsteps|]. split.
  - rewrite Hsteps. intros HF. inversion HF as [|s l Hs _]; subst.
    unfold in_rate in Hs. cbn [touched] in Hs.
    assert (Hr : rate c = 168) by (vm_compute; reflexivity). lia.
  - differ_by (fun x : Z => x).
Qed.

Lemma capacity_touched_by_permutation_only_witness :
  (0 <= 167 < 168 /\ 168 <= 199) /\
  get_byte (run_step (repeat 0 25) (StXor 167 0x80)) 199 =
    get_byte (repeat 0 25) 199.
Proof.
  split; [lia|].
  apply (proj2 (proj2 (proj2 (proj2 (proj2
           (capacity_touched_by_permutation_only 128 [[0x41]; [0x42]] [16%nat]))))));
    cbv zeta; change (rate (shake_init 128)) with 168; lia.
Defined.

(** ** The placeholder hash of the key-generation demo *)

Import KeyGen.

Lemma shake256_loop_total (input : list Z) (inlen : Z) (n : nat) :
  0 < inlen <= Z.of_nat (length input) ->
  forall i : Z, 0 <= i ->
    exists out : list Z,
      shake256_loop input inlen i n = Some out /\
      length out = n /\
      forall k : nat, (k < n)%nat ->
        out !! k =
          Some (Z.land (Z.lxor (input !!! Z.to_nat ((i + Z.of_nat k) mod inlen))
                               (Z.land (i + Z.of_nat k) 0xFF)) 0xFF).
Proof.
  intros Hlen. induction n as [|n IH]; intros i Hi.
  - exists []. repeat split. intros k Hk. lia.
  - destruct (IH (i + 1) ltac:(lia)) as (out & Hout & Hl & Hk).
    assert (Hin : (Z.to_nat (i mod inlen) < length input)%nat).
    { pose proof (Z.mod_pos_bound i inlen ltac:(lia)). lia. }
    destruct (lookup_lt_is_Some_2 input _ Hin) as [b Hb].
    exists (Z.land (Z.lxor b (Z.land i 0xFF)) 0xFF :: out).
    cbn [shake256_loop]. unfold shake256_byte.
    destruct (Z.eqb_spec inlen 0) as [?|_]; [lia|].
    rewrite Hb. cbn. rewrite Hout. cbn.
    split; [reflexivity|]. split; [congruence|].
    intros [|k] Hlt.
    + cbn. rewrite Z.add_0_r.
      rewrite (list_lookup_total_correct input _ b Hb). reflexivity.
    + change (out !! k = Some
                (Z.land (Z.lxor (input !!! Z.to_nat ((i + Z.of_nat (S k)) mod inlen))
                                (Z.land (i + Z.of_nat (S k)) 0xFF)) 0xFF)).
      rewrite Hk by lia.
      replace (i + 1 + Z.of_nat k) with (i + Z.of_nat (S k)) by lia.
      reflexivity.
Qed.

Lemma shake256_total (outlen : nat) (input : list Z) (inlen : Z) :
  0 < inlen <= Z.of_nat (length input) ->
  is_Some (KeyGen.shake256 outlen input inlen).
Proof.
  intros Hlen. destruct (shake256_loop_total input inlen outlen Hlen 0 ltac:(lia))
    as (out & Hout & _).
  exists out. exact Hout.
Qed.

Lemma expand_seed_length (seed : list Z) (b0 b1 : Z) :
  length seed = SEEDBYTES ->
  Z.of_nat (length (expand_seed seed b0 b1)) = Z.of_nat SEEDBYTES + 2.
Proof.
  intros Hlen. unfold expand_seed.
  rewrite length_app, length_take, Hlen. unfold SEEDBYTES. cbn [length]. lia.
Qed.

Lemma sample_small_poly_total (seed : list Z) (nonce : Z) :
  length seed = SEEDBYTES -> is_Some (sample_small_poly seed nonce).
Proof.
  intros Hlen. unfold sample_small_poly.
  destruct (shake256_total (N * 2)
              (expand_seed seed (Z.land nonce 255) (Z.shiftr nonce 8))
              (Z.of_nat SEEDBYTES + 2)) as [buf Hbuf].
  { rewrite expand_seed_length by exact Hlen. lia. }
  rewrite Hbuf. cbn [mbind option_bind]. eexists. reflexivity.
Qed.

Lemma expand_entry_total (seed : list Z) (i j : Z) :
  length seed = SEEDBYTES -> is_Some (expand_entry seed i j).
Proof.
  intros Hlen. unfold expand_entry.
  destruct (shake256_total (N * 4) (expand_seed seed i j)
              (Z.of_nat SEEDBYTES + 2)) as [buf Hbuf].
  { rewrite expand_seed_length by exact Hlen. lia. }
  rewrite Hbuf. cbn [mbind option_bind]. eexists. reflexivity.
Qed.

Lemma expand_matrix_a_total (seed : list Z) :
  length seed = SEEDBYTES -> is_Some (expand_matrix_a seed).
Proof.
  intros Hlen. unfold expand_matrix_a.
  apply mapM_is_Some_2, Forall_forall. intros i _.
  apply mapM_is_Some_2, Forall_forall. intros j _.
  apply expand_entry_total, Hlen.
Qed.

(** C10. The placeholder [shake256] is defined for a non-empty input:
    with [inlen > 0] (and [inlen] bytes behind [input]) every read
    [input[i % inlen]] is at an index in [0, inlen), and the call yields
    exactly [outlen] bytes, byte [i] being [input[i % inlen] ^ (i & 0xFF)];
    with [inlen = 0] the first iteration divides by zero, so the call is
    undefined as soon as [outlen > 0]; and both callers,
    [sample_small_poly] and [expand_matrix_a], pass a buffer of
    [SEEDBYTES + 2] bytes with [inlen = SEEDBYTES + 2], so they are
    defined for every 32-byte seed. *)
Theorem placeholder_shake256_total_for_nonempty_input
    (outlen : nat) (input : list Z) (inlen : Z) (seed : list Z) (nonce : Z) :
  (0 < inlen <= Z.of_nat (length input) ->
   exists out : list Z,
     KeyGen.shake256 outlen input inlen = Some out /\
     length out = outlen /\
     forall i : nat, (i < outlen)%nat ->
       0 <= Z.of_nat i mod inlen < inlen /\
       out !! i =
         Some (Z.land (Z.lxor (input !!! Z.to_nat (Z.of_nat i mod inlen))
                              (Z.land (Z.of_nat i) 0xFF)) 0xFF)) /\
  KeyGen.shake256 (S outlen) input 0 = None /\
  (length seed = SEEDBYTES ->
   is_Some (sample_small_poly seed nonce) /\ is_Some (expand_matrix_a seed)).
Proof.
  split; [|split].
  - intros Hlen.
    destruct (shake256_loop_total input inlen outlen Hlen 0 ltac:(lia))
      as (out & Hout & Hl & Hk).
    exists out. split; [exact Hout|]. split; [exact Hl|].
    intros i Hi. split; [apply Z.mod_pos_bound; lia|].
    rewrite Hk by exact Hi. reflexivity.
  - reflexivity.
  - intros Hlen. split;
      [apply sample_small_poly_total|apply expand_matrix_a_total]; exact Hlen.
Qed.

Lemma placeholder_shake256_total_for_nonempty_input_witness :
  0 < 3 <= Z.of_nat (length [0x10; 0x20; 0x30]) /\
  length (repeat 7 32) = SEEDBYTES /\
  (exists out : list Z,
     KeyGen.shake256 5 [0x10; 0x20; 0x30] 3 = Some out /\ length out = 5%nat) /\
  is_Some (sample_small_poly (repeat 7 32) 3).
Proof.
  split; [cbn; lia|]. split; [reflexivity|].
  pose proof (placeholder_shake256_total_for_nonempty_input
                5 [0x10; 0x20; 0x30] 3 (repeat 7 32) 3) as (Hdef & _ & Hcall).
  split.
  - destruct Hdef as (out & Hout & Hl & _); [cbn; lia|].
    exists out. split; assumption.
  - apply Hcall. reflexivity.
Defined.

(** * Further properties of the code *)

(** ** Squeezing in several calls *)

Lemma shake_squeeze_app (n1 : nat) :
  forall (ctx : keccak_state) (n2 : nat),
    shake_squeeze ctx (n1 + n2) =
      (fst (shake_squeeze (fst (shake_squeeze ctx n1)) n2),
       snd (shake_squeeze ctx n1) ++
       snd (shake_squeeze (fst (shake_squeeze ctx n1)) n2)).
Proof.
  induction n1 as [|n1 IH]; intros ctx n2.
  - cbn [Nat.add shake_squeeze fst snd app]. apply surjective_pairing.
  - cbn [Nat.add shake_squeeze].
    rewrite (IH (mk_keccak_state (state (squeeze_refill ctx))
                   (rate (squeeze_refill ctx))
                   (wrap64 (absorb_pos (squeeze_refill ctx) + 1))) n2).
    destruct (shake_squeeze _ n1) as [c1 o1]. cbn [fst snd].
    destruct (shake_squeeze c1 n2) as [c2 o2]. reflexivity.
Qed.

(** X1. Squeezing [n1] bytes and then [n2] more, in two calls of
    [shake_squeeze] on the same context, writes the same bytes and leaves
    the same context as one call for [n1 + n2] bytes. *)
Theorem shake_squeeze_two_calls (ctx : keccak_state) (n1 n2 : nat) :
  let '(c1, out1) := shake_squeeze ctx n1 in
  let '(c2, out2) := shake_squeeze c1 n2 in
  shake_squeeze ctx (n1 + n2) = (c2, out1 ++ out2).
Proof.
  rewrite shake_squeeze_app.
  destruct (shake_squeeze ctx n1) as [c1 o1]. cbn [fst snd].
  destruct (shake_squeeze c1 n2) as [c2 o2]. reflexivity.
Qed.

Lemma get_byte_range (st : list Z) (p : Z) : 0 <= get_byte st p < 256.
Proof.
  unfold get_byte. change 255 with (Z.ones 8). rewrite Z.land_ones by lia.
  apply Z.mod_pos_bound. lia.
Qed.

Lemma shake_squeeze_bytes (n : nat) :
  forall ctx : keccak_state,
    Forall (fun b => 0 <= b < 256) (snd (shake_squeeze ctx n)).
Proof.
  induction n as [|n IH]; intros ctx; [constructor|].
  cbn [shake_squeeze].
  specialize (IH (mk_keccak_state (state (squeeze_refill ctx))
                    (rate (squeeze_refill ctx))
                    (wrap64 (absorb_pos (squeeze_refill ctx) + 1)))).
  destruct (shake_squeeze _ n) as [c out]. cbn [snd] in *.
  constructor; [apply get_byte_range|exact IH].
Qed.

(** X2. Whatever the input (of any length, with any integers as its
    elements), [shake128] and [shake256] return exactly [outlen] values
    and each of them is a byte, between 0 and 255. *)
Theorem shake_output_is_outlen_bytes (outlen : nat) (input : list Z) :
  length (shake128 outlen input) = outlen /\
  Forall (fun b => 0 <= b < 256) (shake128 outlen input) /\
  length (Keccak.shake256 outlen input) = outlen /\
  Forall (fun b => 0 <= b < 256) (Keccak.shake256 outlen input).
Proof.
  unfold shake128, Keccak.shake256.
  repeat split; first [apply squeeze_length | apply shake_squeeze_bytes].
Qed.

(** ** The byte view as a store *)

Lemma lane_put_same_byte (w k : Z) :
  0 <= k -> lane_put w k (Z.land (Z.shiftr w k) 0xFF) = w.
Proof.
  intros Hk. unfold lane_put. change 255 with (Z.ones 8). Z.bitblast.
Qed.

Lemma set_get_byte (st : list Z) (p : Z) :
  0 <= p -> set_byte st p (get_byte st p) = st.
Proof.
  intros Hp. unfold set_byte, get_byte, rd. apply list_eq. intros j.
  rewrite list_lookup_alter.
  destruct (decide (Z.to_nat (p / 8) = j)) as [<-|]; [|reflexivity].
  destruct (st !! Z.to_nat (p / 8)) as [w|] eqn:Hw; [|reflexivity].
  rewrite (list_lookup_total_correct st _ w Hw). cbn [fmap option_fmap option_map].
  f_equal. apply lane_put_same_byte.
  pose proof (Z.mod_pos_bound p 8 ltac:(lia)). lia.
Qed.

(** X3. The [uint8_t] view of the lanes behaves as a byte array: after
    [state_bytes[p] = v] a read at [p] gives [v] truncated to eight bits
    and a read at any other index [q] gives what it gave before; writing
    back the byte just read, and XORing 0 into a byte, leave the lanes as
    they are; and a byte write never changes the number of lanes. *)
Theorem byte_view_is_a_byte_array (st : list Z) (p q v : Z) :
  0 <= p -> (Z.to_nat (p / 8) < length st)%nat -> 0 <= q -> p <> q ->
  get_byte (set_byte st p v) p = Z.land v 0xFF /\
  get_byte (set_byte st p v) q = get_byte st q /\
  set_byte st p (get_byte st p) = st /\
  xor_byte st p 0 = st /\
  length (set_byte st p v) = length st.
Proof.
  intros Hp Hin Hq Hne.
  split; [apply get_set_byte_same; assumption|].
  split; [apply get_set_byte_other; assumption|].
  split; [apply set_get_byte, Hp|].
  split; [|apply length_alter].
  unfold xor_byte. rewrite Z.lxor_0_r. apply set_get_byte, Hp.
Qed.

Lemma byte_view_is_a_byte_array_witness :
  let st := <[20%nat := 0x1122334455667788]> (repeat 0 25) in
  (0 <= 163 /\ (Z.to_nat (163 / 8) < length st)%nat /\ 0 <= 164 /\ 163 <> 164) /\
  get_byte (set_byte st 163 0x1AB) 163 = 0xAB /\
  get_byte (set_byte st 163 0x1AB) 164 = get_byte st 164.
Proof.
  intros st.
  assert (Hin : (Z.to_nat (163 / 8) < length st)%nat)
    by (change (20 < 25)%nat; lia).
  split; [repeat split; try lia; exact Hin|].
  pose proof (byte_view_is_a_byte_array st 163 164 0x1AB
                ltac:(lia) Hin ltac:(lia) ltac:(lia)) as (H1 & H2 & _).
  split; [exact H1|exact H2].
Defined.

(** ** How often the permutation runs *)

Lemma permutations_app (l1 l2 : list sponge_step) :
  permutations (l1 ++ l2) = (permutations l1 + permutations l2)%nat.
Proof. unfold permutations. rewrite List.filter_app. apply length_app. Qed.

Lemma absorb_steps_permutations (input : list Z) :
  forall ctx : keccak_state,
    absorbing_inv ctx ->
    Z.of_nat (permutations (shake_absorb_steps ctx input)) =
      (absorb_pos ctx + Z.of_nat (length input)) / rate ctx.
Proof.
  induction input as [|b input IH]; intros ctx Hinv.
  - cbn. rewrite Z.add_0_r, Z.div_small; [reflexivity|apply Hinv].
  - cbn [shake_absorb_steps length]. rewrite permutations_app, Nat2Z.inj_add.
    rewrite IH by (apply absorb_byte_inv, Hinv).
    rewrite absorb_byte_pos, absorb_byte_rate by exact Hinv.
    destruct Hinv as (Hpos & Hrate & _).
    unfold absorb_byte_steps. rewrite wrap64_small by lia.
    destruct (Z.eqb_spec (absorb_pos ctx + 1) (rate ctx)) as [Heq|Hne].
    + change (Z.of_nat (permutations [StXor (absorb_pos ctx) b; StPermute])) with 1.
      rewrite Heq, Z.mod_same by lia.
      replace (absorb_pos ctx + Z.of_nat (S (length input)))
        with (1 * rate ctx + Z.of_nat (length input)) by lia.
      rewrite Z.div_add_l by lia. reflexivity.
    + change (Z.of_nat (permutations [StXor (absorb_pos ctx) b])) with 0.
      rewrite Z.mod_small by lia. rewrite Z.add_0_l. f_equal. lia.
Qed.

Lemma squeeze_steps_permutations (n : nat) :
  forall ctx : keccak_state,
    squeezing_inv ctx ->
    Z.of_nat (permutations (shake_squeeze_steps ctx n)) =
      match n with
      | O => 0
      | S n' => (absorb_pos ctx + Z.of_nat n') / rate ctx
      end.
Proof.
  induction n as [|n IH]; intros ctx Hinv; [reflexivity|].
  cbn [shake_squeeze_steps].
  destruct (squeeze_refill_inv ctx Hinv) as (Hpos1 & Hrate1 & Hlen1).
  destruct Hinv as (Hpos & Hr & Hlen).
  rewrite permutations_app. unfold permutations at 2.
  cbn [List.filter is_permute]. fold (permutations
    (shake_squeeze_steps
       (mk_keccak_state (state (squeeze_refill ctx)) (rate (squeeze_refill ctx))
          (wrap64 (absorb_pos (squeeze_refill ctx) + 1))) n)).
  rewrite Nat2Z.inj_add, IH; cycle 1.
  { unfold squeezing_inv. cbn [state rate absorb_pos].
    rewrite wrap64_small by lia. rewrite Hrate1.
    repeat split; try lia; exact Hlen1. }
  cbn [rate absorb_pos]. rewrite wrap64_small by lia. rewrite Hrate1.
  unfold squeeze_refill in *.
  destruct (Z.eqb_spec (absorb_pos ctx) (rate ctx)) as [Heq|Hne];
    cbn [absorb_pos] in *.
  - change (Z.of_nat (permutations [StPermute])) with 1.
    destruct n as [|n'].
    + change (Z.of_nat 0) with 0.
      rewrite Heq, !Z.add_0_r, Z.div_same by lia. reflexivity.
    + rewrite Heq.
      replace (rate ctx + Z.of_nat (S n')) with (1 * rate ctx + Z.of_nat (S n'))
        by lia.
      rewrite Z.div_add_l by lia. f_equal. f_equal. lia.
  - change (Z.of_nat (permutations [])) with 0.
    destruct n as [|n'].
    + change (Z.of_nat 0) with 0.
      rewrite !Z.add_0_r, Z.div_small by lia. reflexivity.
    + rewrite Z.add_0_l. f_equal. lia.
Qed.

(** X4. Cost of a one-shot hash.  With rate [r] (168 or 136), hashing an
    input of [inlen] bytes into [outlen] bytes runs [keccak_f1600]
    [inlen / r] times in [shake_absorb], once in [shake_finalize], and
    [(outlen - 1) / r] times in [shake_squeeze] (not at all for
    [outlen = 0]): squeezing permutes only when the previous block is used
    up and another byte is asked for.  The counts are those of the logged
    steps of each call, and each log is an exact account of its call:
    replayed on the lanes before the call it gives the lanes after it
    and, for [shake_squeeze], the bytes written to [output], which for
    the two variants are the results of [shake128] and [shake256]. *)
Theorem one_shot_permutation_count
    (shake_bits : Z) (input : list Z) (outlen : nat) :
  let c0 := shake_init shake_bits in
  let r := rate c0 in
  let c1 := shake_absorb c0 input in
  let c2 := shake_finalize c1 in
  let sa := shake_absorb_steps c0 input in
  let sf := shake_finalize_steps c1 in
  let ss := shake_squeeze_steps c2 outlen in
  (fold_left run_step sa (state c0) = state c1 /\
   Z.of_nat (permutations sa) = Z.of_nat (length input) / r) /\
  (fold_left run_step sf (state c1) = state c2 /\
   permutations sf = 1%nat) /\
  (fold_left run_step ss (state c2) = state (fst (shake_squeeze c2 outlen)) /\
   run_steps_reads (state c2) ss = snd (shake_squeeze c2 outlen) /\
   Z.of_nat (permutations ss) =
     match outlen with
     | O => 0
     | S n => Z.of_nat n / r
     end) /\
  session_steps shake_bits [input] [outlen] = sa ++ sf ++ ss /\
  snd (shake_squeeze c2 outlen) = session_output shake_bits [input] [outlen] /\
  session_output 128 [input] [outlen] = shake128 outlen input /\
  session_output 256 [input] [outlen] = Keccak.shake256 outlen input /\
  Z.of_nat (permutations (session_steps shake_bits [input] [outlen])) =
    Z.of_nat (length input) / r + 1 +
    match outlen with
    | O => 0
    | S n => Z.of_nat n / r
    end.
Proof.
  intros c0 r c1 c2 sa sf ss.
  pose proof (shake_init_inv shake_bits) as H0. fold c0 in H0.
  assert (Ha : Z.of_nat (permutations sa) = Z.of_nat (length input) / r).
  { subst sa. rewrite absorb_steps_permutations by exact H0.
    unfold c0. rewrite shake_init_pos, Z.add_0_l. reflexivity. }
  assert (Hs : Z.of_nat (permutations ss) =
               match outlen with
               | O => 0
               | S n => Z.of_nat n / r
               end).
  { subst ss. rewrite squeeze_steps_permutations
      by (apply shake_finalize_inv, shake_absorb_inv, H0).
    change (absorb_pos c2) with 0. change (rate c2) with (rate c1).
    unfold c1. rewrite shake_absorb_rate. fold r.
    destruct outlen; [reflexivity|]. rewrite Z.add_0_l. reflexivity. }
  assert (Hsteps : session_steps shake_bits [input] [outlen] = sa ++ sf ++ ss).
  { unfold session_steps.
    cbn [fold_left absorb_calls_steps squeeze_calls_steps].
    rewrite !app_nil_r. reflexivity. }
  split; [split; [apply shake_absorb_steps_replay|exact Ha]|].
  split; [split; [apply shake_finalize_steps_replay|reflexivity]|].
  split.
  { split; [apply shake_squeeze_steps_replay|].
    split; [apply shake_squeeze_steps_reads|exact Hs]. }
  split; [exact Hsteps|].
  split.
  { unfold session_output. cbn [fold_left squeeze_calls_output].
    rewrite app_nil_r. reflexivity. }
  split; [exact (proj1 (session_output_one_shot input outlen))|].
  split; [exact (proj2 (session_output_one_shot input outlen))|].
  rewrite Hsteps, !permutations_app, !Nat2Z.inj_add, Ha, Hs.
  change (Z.of_nat (permutations sf)) with 1. lia.
Qed.

(** ** 64-bit lanes *)

Lemma u64_land (x : Z) : u64 x <-> Z.land x (Z.ones 64) = x.
Proof.
  unfold u64. rewrite Z.land_ones by lia. split.
  - intros H. apply Z.mod_small, H.
  - intros <-. apply Z.mod_pos_bound. lia.
Qed.

Lemma wrap64_land (x : Z) : wrap64 x = Z.land x (Z.ones 64).
Proof. unfold wrap64. rewrite Z.land_ones by lia. reflexivity. Qed.

Lemma wrap64_u64 (x : Z) : u64 (wrap64 x).
Proof. unfold u64, wrap64. apply Z.mod_pos_bound. lia. Qed.

Lemma u64_testbit_high (x i : Z) : u64 x -> 64 <= i -> Z.testbit x i = false.
Proof.
  intros Hx Hi. apply u64_land in Hx. rewrite <- Hx. Z.bitblast_core.
Qed.

Lemma rotl64_u64 (x n : Z) : u64 x -> 0 <= n <= 64 -> u64 (rotl64 x n).
Proof.
  intros Hx Hn. apply u64_land in Hx. apply u64_land.
  unfold rotl64. rewrite wrap64_land. rewrite <- Hx. Z.bitblast.
Qed.

Lemma rotl64_testbit (x n i : Z) :
  u64 x -> 0 <= n < 64 -> 0 <= i < 64 ->
  Z.testbit (rotl64 x n) i = Z.testbit x ((i - n) mod 64).
Proof.
  intros Hx Hn Hi. apply u64_land in Hx.
  unfold rotl64. rewrite wrap64_land. rewrite <- Hx.
  destruct (Z_lt_le_dec i n).
  - replace ((i - n) mod 64) with (i - n + 64)
      by (apply Z.mod_unique with (-1); lia).
    Z.bitblast_core.
  - rewrite (Z.mod_small (i - n)) by lia. Z.bitblast_core.
Qed.

Lemma lxor_u64 (a b : Z) : u64 a -> u64 b -> u64 (Z.lxor a b).
Proof.
  intros Ha Hb. apply u64_land in Ha, Hb. apply u64_land.
  rewrite <- Ha, <- Hb. Z.bitblast.
Qed.

Lemma land_u64 (a b : Z) : u64 b -> u64 (Z.land a b).
Proof.
  intros Hb. apply u64_land in Hb. apply u64_land. rewrite <- Hb. Z.bitblast.
Qed.

(** X5. For a 64-bit [x] and a count [0 <= n < 64], [rotl64 (x, n)] is
    the rotation of [x] to the left by [n]: it is again a 64-bit value
    and its bit [i] is bit [(i - n) mod 64] of [x]; for [0 < n < 64]
    rotating on by [64 - n] gives [x] back. *)
Theorem rotl64_is_rotation (x n i : Z) :
  u64 x -> 0 <= n < 64 -> 0 <= i < 64 ->
  u64 (rotl64 x n) /\
  Z.testbit (rotl64 x n) i = Z.testbit x ((i - n) mod 64) /\
  (0 < n -> rotl64 (rotl64 x n) (64 - n) = x).
Proof.
  intros Hx Hn Hi.
  split; [apply rotl64_u64; [exact Hx|lia]|].
  split; [apply rotl64_testbit; assumption|].
  intros Hpos.
  pose proof (rotl64_u64 x n Hx ltac:(lia)) as Hr.
  pose proof (rotl64_u64 _ (64 - n) Hr ltac:(lia)) as Hrr.
  apply Z.bits_inj'. intros j Hj.
  destruct (Z_lt_le_dec j 64).
  - rewrite (rotl64_testbit (rotl64 x n)) by (assumption || lia).
    rewrite rotl64_testbit
      by (try assumption; try lia; apply Z.mod_pos_bound; lia).
    f_equal.
    destruct (Z_lt_le_dec j (64 - n)).
    + assert (Hin : (j - (64 - n)) mod 64 = j + n)
        by (symmetry; apply Z.mod_unique with (-1); lia).
      rewrite Hin. symmetry. apply Z.mod_unique with 0; lia.
    + assert (Hin : (j - (64 - n)) mod 64 = j - (64 - n))
        by (apply Z.mod_small; lia).
      rewrite Hin. symmetry. apply Z.mod_unique with (-1); lia.
  - rewrite !u64_testbit_high by assumption. reflexivity.
Qed.

Lemma rotl64_is_rotation_witness :
  (u64 0x8000000000000001 /\ 0 <= 1 < 64 /\ 0 <= 0 < 64) /\
  Z.testbit (rotl64 0x8000000000000001 1) 0 = true /\
  rotl64 (rotl64 0x8000000000000001 1) 63 = 0x8000000000000001.
Proof.
  assert (Hx : u64 0x8000000000000001) by (unfold u64; lia).
  split; [repeat split; try lia; apply Hx|].
  pose proof (rotl64_is_rotation 0x8000000000000001 1 0
                Hx ltac:(lia) ltac:(lia)) as (_ & Hbit & Hinv).
  split; [exact Hbit|]. apply Hinv. lia.
Defined.

Lemma rd_u64 (a : list Z) (i : Z) : Forall u64 a -> u64 (rd a i).
Proof.
  intros Ha. unfold rd. rewrite list_lookup_total_alt.
  destruct (a !! Z.to_nat i) as [w|] eqn:Hw; cbn.
  - exact (proj1 (Forall_lookup u64 a) Ha _ _ Hw).
  - unfold u64. cbn. lia.
Qed.

Lemma wr_u64 (a : list Z) (i v : Z) :
  Forall u64 a -> u64 v -> Forall u64 (wr a i v).
Proof. intros Ha Hv. unfold wr. apply Forall_insert; assumption. Qed.

Lemma zeros_u64 (n : nat) : Forall u64 (repeat 0 n).
Proof. induction n; constructor; [unfold u64; lia|assumption]. Qed.

Lemma keccak_rotations_range (i : Z) : 0 <= rd keccak_rotations i <= 64.
Proof.
  assert (HF : Forall (fun n => 0 <= n <= 64) keccak_rotations)
    by (unfold keccak_rotations; repeat constructor; lia).
  unfold rd. rewrite list_lookup_total_alt.
  destruct (keccak_rotations !! Z.to_nat i) as [w|] eqn:Hw; cbn.
  - exact (proj1 (Forall_lookup _ _) HF _ _ Hw).
  - lia.
Qed.

Lemma keccak_round_constants_u64 : Forall u64 keccak_round_constants.
Proof. unfold keccak_round_constants, u64. repeat constructor; lia. Qed.

Lemma keccak_round_u64 (round : Z) (st : list Z) :
  Forall u64 st -> Forall u64 (keccak_round round st).
Proof.
  intros Hst.
  assert (HC : Forall u64 (theta_C st)).
  { unfold theta_C. apply for_invariant; [apply zeros_u64|].
    intros x C HCx. apply wr_u64; [exact HCx|].
    repeat apply lxor_u64; apply rd_u64, Hst. }
  assert (HD : Forall u64 (theta_D (theta_C st))).
  { unfold theta_D. apply for_invariant; [apply zeros_u64|].
    intros x D HDx. apply wr_u64; [exact HDx|].
    apply lxor_u64; [apply rd_u64, HC|].
    apply rotl64_u64; [apply rd_u64, HC|lia]. }
  assert (H1 : Forall u64 (theta st)).
  { unfold theta, theta_apply. apply for_invariant; [exact Hst|].
    intros x a Ha. apply for_invariant; [exact Ha|].
    intros y a' Ha'. apply wr_u64; [exact Ha'|].
    apply lxor_u64; [apply rd_u64, Ha'|apply rd_u64, HD]. }
  assert (HB : Forall u64 (rho_pi (theta st))).
  { unfold rho_pi. apply for_invariant; [apply zeros_u64|].
    intros x B HBx. apply for_invariant; [exact HBx|].
    intros y B' HBy. apply wr_u64; [exact HBy|].
    apply rotl64_u64; [apply rd_u64, H1|apply keccak_rotations_range]. }
  unfold keccak_round, iota. apply wr_u64.
  - unfold chi. apply for_invariant; [exact H1|].
    intros y a Ha. apply for_invariant; [exact Ha|].
    intros x a' Ha'. apply wr_u64; [exact Ha'|].
    apply lxor_u64; [apply rd_u64, HB|]. apply land_u64, rd_u64, HB.
  - apply lxor_u64; [|apply rd_u64, keccak_round_constants_u64].
    apply rd_u64. unfold chi. apply for_invariant; [exact H1|].
    intros y a Ha. apply for_invariant; [exact Ha|].
    intros x a' Ha'. apply wr_u64; [exact Ha'|].
    apply lxor_u64; [apply rd_u64, HB|]. apply land_u64, rd_u64, HB.
Qed.

Lemma keccak_f1600_lanes_ok (st : list Z) :
  lanes_ok st -> lanes_ok (keccak_f1600 st).
Proof.
  intros (Hlen & Hst). split; [rewrite keccak_f1600_length; exact Hlen|].
  unfold keccak_f1600. apply for_invariant; [exact Hst|].
  intros i a Ha. apply keccak_round_u64, Ha.
Qed.

(** X6. [keccak_f1600] maps a state of 25 lanes, each below [2 ^ 64], to
    a state of 25 lanes, each below [2 ^ 64]: no operation of the round
    (XOR, rotation, complement, AND) leaves the 64-bit range. *)
Theorem keccak_f1600_keeps_64_bit_lanes (st : list Z) :
  length st = STATE_SIZE -> Forall u64 st ->
  length (keccak_f1600 st) = STATE_SIZE /\ Forall u64 (keccak_f1600 st).
Proof. intros Hlen Hst. apply keccak_f1600_lanes_ok. split; assumption. Qed.

Lemma keccak_f1600_keeps_64_bit_lanes_witness :
  (length (repeat 0 25) = STATE_SIZE /\ Forall u64 (repeat 0 25)) /\
  Forall u64 (keccak_f1600 (repeat 0 25)).
Proof.
  split; [split; [reflexivity|apply zeros_u64]|].
  apply (keccak_f1600_keeps_64_bit_lanes (repeat 0 25) eq_refl (zeros_u64 25)).
Defined.

Lemma lane_put_u64 (w k v : Z) : u64 w -> 0 <= k <= 56 -> u64 (lane_put w k v).
Proof.
  intros Hw Hk. apply u64_land in Hw. apply u64_land.
  unfold lane_put. rewrite <- Hw. change 255 with (Z.ones 8). Z.bitblast.
Qed.

Lemma xor_byte_u64 (st : list Z) (p v : Z) :
  Forall u64 st -> Forall u64 (xor_byte st p v).
Proof.
  intros Hst. unfold xor_byte, set_byte. apply Forall_alter; [exact Hst|].
  intros w _ Hw. apply lane_put_u64; [exact Hw|].
  pose proof (Z.mod_pos_bound p 8 ltac:(lia)). lia.
Qed.

Lemma xor_byte_lanes_ok (st : list Z) (p v : Z) :
  lanes_ok st -> lanes_ok (xor_byte st p v).
Proof.
  intros (Hlen & Hst). split; [rewrite xor_byte_length; exact Hlen|].
  apply xor_byte_u64, Hst.
Qed.

Lemma absorb_byte_lanes_ok (ctx : keccak_state) (b : Z) :
  lanes_ok (state ctx) -> lanes_ok (state (absorb_byte ctx b)).
Proof.
  intros Hst. unfold absorb_byte. destruct (_ =? _); cbn [state].
  - apply keccak_f1600_lanes_ok, xor_byte_lanes_ok, Hst.
  - apply xor_byte_lanes_ok, Hst.
Qed.

Lemma shake_absorb_lanes_ok (input : list Z) :
  forall ctx : keccak_state,
    lanes_ok (state ctx) -> lanes_ok (state (shake_absorb ctx input)).
Proof.
  induction input as [|b input IH]; intros ctx Hst; [exact Hst|].
  cbn [shake_absorb fold_left]. apply IH, absorb_byte_lanes_ok, Hst.
Qed.

Lemma shake_finalize_lanes_ok (ctx : keccak_state) :
  lanes_ok (state ctx) -> lanes_ok (state (shake_finalize ctx)).
Proof.
  intros Hst. unfold shake_finalize, finalize_pad. cbn [state].
  apply keccak_f1600_lanes_ok. do 2 apply xor_byte_lanes_ok. exact Hst.
Qed.

Lemma shake_squeeze_lanes_ok (n : nat) :
  forall ctx : keccak_state,
    lanes_ok (state ctx) -> lanes_ok (state (fst (shake_squeeze ctx n))).
Proof.
  induction n as [|n IH]; intros ctx Hst; [exact Hst|].
  cbn [shake_squeeze].
  specialize (IH (mk_keccak_state (state (squeeze_refill ctx))
                    (rate (squeeze_refill ctx))
                    (wrap64 (absorb_pos (squeeze_refill ctx) + 1)))).
  destruct (shake_squeeze _ n) as [c out]. cbn [fst state] in *.
  apply IH. unfold squeeze_refill. destruct (_ =? _); cbn [state];
    [apply keccak_f1600_lanes_ok|]; exact Hst.
Qed.

Lemma absorb_calls_lanes_ok (chunks : list (list Z)) :
  forall ctx : keccak_state,
    lanes_ok (state ctx) -> lanes_ok (state (fold_left shake_absorb chunks ctx)).
Proof.
  induction chunks as [|m ms IH]; intros ctx Hst; [exact Hst|].
  cbn [fold_left]. apply IH, shake_absorb_lanes_ok, Hst.
Qed.

Lemma squeeze_calls_lanes_ok (outs : list nat) :
  forall ctx : keccak_state,
    lanes_ok (state ctx) -> lanes_ok (state (squeeze_calls ctx outs)).
Proof.
  induction outs as [|n ns IH]; intros ctx Hst; [exact Hst|].
  cbn [squeeze_calls]. apply IH, shake_squeeze_lanes_ok, Hst.
Qed.

(** X7. The sponge keeps the state well formed: in a run of the engine
    ([shake_init], any [shake_absorb] calls, [shake_finalize], any
    [shake_squeeze] calls) the state consists of 25 lanes below [2 ^ 64]
    after [shake_init], after the absorb calls, after [shake_finalize]
    and after the squeeze calls. *)
Theorem sponge_keeps_64_bit_lanes
    (shake_bits : Z) (chunks : list (list Z)) (outs : list nat) :
  let c0 := shake_init shake_bits in
  let c1 := fold_left shake_absorb chunks c0 in
  lanes_ok (state c0) /\
  lanes_ok (state c1) /\
  lanes_ok (state (shake_finalize c1)) /\
  lanes_ok (state (session shake_bits chunks outs)).
Proof.
  intros c0 c1.
  assert (H0 : lanes_ok (state c0)).
  { unfold c0, shake_init, shake_init_io.
    destruct (shake_bits =? 128); [|destruct (shake_bits =? 256)];
      (split; [reflexivity|apply zeros_u64]). }
  assert (H1 : lanes_ok (state c1)) by apply absorb_calls_lanes_ok, H0.
  assert (H2 : lanes_ok (state (shake_finalize c1)))
    by apply shake_finalize_lanes_ok, H1.
  split; [exact H0|]. split; [exact H1|]. split; [exact H2|].
  unfold session. apply squeeze_calls_lanes_ok, H2.
Qed.

(** ** The scratch arrays need no initial value *)

Lemma theta_C_from_any (C0 st : list Z) :
  length C0 = 5%nat -> theta_C_from C0 st = theta_C st.
Proof.
  destruct C0 as [|c0 [|c1 [|c2 [|c3 [|c4 [|]]]]]]; try discriminate.
  intros _. reflexivity.
Qed.

Lemma theta_D_from_any (D0 C : list Z) :
  length D0 = 5%nat -> theta_D_from D0 C = theta_D C.
Proof.
  destruct D0 as [|c0 [|c1 [|c2 [|c3 [|c4 [|]]]]]]; try discriminate.
  intros _. reflexivity.
Qed.

Lemma rho_pi_from_any (B0 st : list Z) :
  length B0 = 25%nat -> rho_pi_from B0 st = rho_pi st.
Proof.
  intros Hlen.
  do 25 (destruct B0 as [|? B0]; [discriminate Hlen|]).
  destruct B0; [|discriminate Hlen]. reflexivity.
Qed.

Lemma theta_C_length (st : list Z) : length (theta_C st) = 5%nat.
Proof.
  unfold theta_C. apply for_invariant; [reflexivity|].
  intros i a <-. apply wr_length.
Qed.

Lemma theta_D_length (C : list Z) : length (theta_D C) = 5%nat.
Proof.
  unfold theta_D. apply for_invariant; [reflexivity|].
  intros i a <-. apply wr_length.
Qed.

Lemma rho_pi_length (st : list Z) : length (rho_pi st) = 25%nat.
Proof.
  unfold rho_pi. apply for_invariant; [reflexivity|].
  intros i a <-. apply for_invariant; [reflexivity|].
  intros j a' <-. apply wr_length.
Qed.

Lemma keccak_round_scratch_eq (round : Z) (st C0 D0 B0 : list Z) :
  length C0 = 5%nat -> length D0 = 5%nat -> length B0 = 25%nat ->
  keccak_round_scratch round (st, (C0, D0, B0)) =
    (keccak_round round st,
     (theta_C st, theta_D (theta_C st), rho_pi (theta st))).
Proof.
  intros HC HD HB. unfold keccak_round_scratch.
  rewrite theta_C_from_any, theta_D_from_any, rho_pi_from_any by assumption.
  unfold keccak_round, theta. reflexivity.
Qed.

Lemma fold_left_fst_simulation {A B I : Type}
    (f : A * B -> I -> A * B) (g : A -> I -> A) (P : B -> Prop) :
  (forall a b i, P b -> fst (f (a, b) i) = g a i /\ P (snd (f (a, b) i))) ->
  forall (l : list I) (a : A) (b : B),
    P b -> fst (fold_left f l (a, b)) = fold_left g l a.
Proof.
  intros Hstep. induction l as [|i l IH]; intros a b Hb; [reflexivity|].
  cbn [fold_left]. destruct (Hstep a b i Hb) as [Hfst Hsnd].
  destruct (f (a, b) i) as [a' b']. cbn [fst snd] in *. subst a'.
  apply IH, Hsnd.
Qed.

(** X8. The scratch arrays [C], [D] and [B] of [keccak_f1600] are never
    read before they are written: whatever they hold when the function is
    entered, the permuted state is the same (the one computed with the
    arrays cleared). *)
Theorem keccak_f1600_ignores_scratch_contents (C0 D0 B0 st : list Z) :
  length C0 = 5%nat -> length D0 = 5%nat -> length B0 = 25%nat ->
  keccak_f1600_scratch C0 D0 B0 st = keccak_f1600 st.
Proof.
  intros HC HD HB. unfold keccak_f1600_scratch, keccak_f1600, for_.
  apply (fold_left_fst_simulation
           (fun acc i => keccak_round_scratch (Z.of_nat i) acc)
           (fun acc i => keccak_round (Z.of_nat i) acc)
           (fun s : list Z * list Z * list Z =>
              length (fst (fst s)) = 5%nat /\ length (snd (fst s)) = 5%nat /\
              length (snd s) = 25%nat)).
  - intros a [[C D] B] i (HC' & HD' & HB'). cbn [fst snd] in *.
    rewrite keccak_round_scratch_eq by assumption. cbn [fst snd].
    split; [reflexivity|].
    split; [apply theta_C_length|].
    split; [apply theta_D_length|apply rho_pi_length].
  - cbn [fst snd]. repeat split; assumption.
Qed.

Lemma keccak_f1600_ignores_scratch_contents_witness :
  (length (repeat 0xFF 5) = 5%nat /\ length (repeat 0xAA 5) = 5%nat /\
   length (repeat 0x55 25) = 25%nat) /\
  keccak_f1600_scratch (repeat 0xFF 5) (repeat 0xAA 5) (repeat 0x55 25)
                       (repeat 0 25) =
    keccak_f1600 (repeat 0 25).
Proof.
  split; [repeat split|].
  apply (keccak_f1600_ignores_scratch_contents
           (repeat 0xFF 5) (repeat 0xAA 5) (repeat 0x55 25) (repeat 0 25));
    reflexivity.
Defined.

(** ** Polynomial arithmetic of the key-generation demo *)

Lemma reduce_mod_q_mod (a : Z) : reduce_mod_q a = a mod Q.
Proof.
  unfold reduce_mod_q, Q. cbv zeta.
  destruct (Z.ltb_spec (Z.rem a 8380417) 0);
    Z.quot_rem_to_equations; Z.div_mod_to_equations; lia.
Qed.

Lemma reduce_mod_q_range (a : Z) : 0 <= reduce_mod_q a < Q.
Proof. rewrite reduce_mod_q_mod. apply Z.mod_pos_bound. reflexivity. Qed.

(** X9. [reduce_mod_q] returns the representative of [a] modulo [Q] in
    [0, Q), also for a negative [a], where the C remainder is negative:
    the result is [a mod Q] with the sign of the divisor. *)
Theorem reduce_mod_q_is_canonical (a : Z) :
  reduce_mod_q a = a mod Q /\
  0 <= reduce_mod_q a < Q /\
  (reduce_mod_q a - a) mod Q = 0.
Proof.
  split; [apply reduce_mod_q_mod|]. split; [apply reduce_mod_q_range|].
  rewrite reduce_mod_q_mod, Zminus_mod_idemp_l, Z.sub_diag. reflexivity.
Qed.

Lemma for_0 {A : Type} (body : Z -> A -> A) (a : A) : for_ 0 body a = a.
Proof. reflexivity. Qed.

Lemma for_S {A : Type} (n : nat) (body : Z -> A -> A) (a : A) :
  for_ (S n) body a = body (Z.of_nat n) (for_ n body a).
Proof. unfold for_. rewrite seq_S, fold_left_app. reflexivity. Qed.

(** A loop that rewrites entry [i] from its old value in iteration [i]. *)
Lemma for_update_pointwise (h : Z -> Z -> Z) (n : nat) (a : list Z) :
  length (for_ n (fun i r => wr r i (h i (rd r i))) a) = length a /\
  forall k : nat,
    (n <= length a)%nat ->
    for_ n (fun i r => wr r i (h i (rd r i))) a !!! k =
      if (k <? n)%nat then h (Z.of_nat k) (a !!! k) else a !!! k.
Proof.
  induction n as [|n [IHlen IH]].
  - split; [reflexivity|]. intros k _. reflexivity.
  - rewrite for_S. split; [rewrite wr_length; exact IHlen|].
    intros k Hn. pose proof (IH n ltac:(lia)) as IHn. pose proof (IH k ltac:(lia)) as IHk.
    set (r := for_ n (fun i r => wr r i (h i (rd r i))) a) in *.
    unfold wr, rd. rewrite Nat2Z.id.
    rewrite list_lookup_total_insert, IHn, IHk.
    rewrite Nat.ltb_irrefl.
    destruct (decide _) as [[<- _]|Hne].
    + rewrite (proj2 (Nat.ltb_lt n (S n))) by lia. reflexivity.
    + assert (n <> k) by (intros ->; apply Hne; split; [reflexivity|lia]).
      destruct (Nat.ltb_spec k n), (Nat.ltb_spec k (S n)); try lia; reflexivity.
Qed.

Lemma list_eq_pointwise (l1 l2 : list Z) :
  length l1 = length l2 ->
  (forall k : nat, (k < length l1)%nat -> l1 !!! k = l2 !!! k) ->
  l1 = l2.
Proof.
  intros Hlen Hk. apply list_eq. intros k.
  destruct (le_lt_dec (length l1) k) as [Hge|Hlt].
  - rewrite !lookup_ge_None_2 by lia. reflexivity.
  - destruct (lookup_lt_is_Some_2 l1 k Hlt) as [x Hx].
    destruct (lookup_lt_is_Some_2 l2 k ltac:(lia)) as [y Hy].
    specialize (Hk k Hlt).
    rewrite (list_lookup_total_correct l1 k x Hx) in Hk.
    rewrite (list_lookup_total_correct l2 k y Hy) in Hk. congruence.
Qed.

Lemma poly_add_inplace_spec (a b : list Z) (k : nat) :
  length a = N -> (k < N)%nat ->
  length (poly_add_inplace a b) = N /\
  poly_add_inplace a b !!! k = (a !!! k + b !!! k) mod Q.
Proof.
  intros Hlen Hk. unfold poly_add_inplace.
  destruct (for_update_pointwise (fun i x => reduce_mod_q (x + rd b i)) N a)
    as [Hl Hp].
  split; [rewrite Hl; exact Hlen|].
  rewrite Hp by lia. rewrite (proj2 (Nat.ltb_lt k N) Hk).
  rewrite reduce_mod_q_mod. unfold rd. rewrite Nat2Z.id. reflexivity.
Qed.

Lemma poly_add_spec (a b : list Z) (k : nat) :
  (k < N)%nat ->
  length (poly_add a b) = N /\
  poly_add a b !!! k = (a !!! k + b !!! k) mod Q.
Proof.
  intros Hk. unfold poly_add.
  destruct (for_update_pointwise (fun i _ => reduce_mod_q (rd a i + rd b i)) N
              (repeat 0 N)) as [Hl Hp].
  rewrite repeat_length in Hl.
  split; [exact Hl|].
  rewrite Hp by (rewrite repeat_length; lia).
  rewrite (proj2 (Nat.ltb_lt k N) Hk).
  rewrite reduce_mod_q_mod. unfold rd. rewrite Nat2Z.id. reflexivity.
Qed.

(** X10. [poly_add] adds coefficient by coefficient modulo [Q]: entry
    [k] of the result is [(a[k] + b[k]) mod Q], in [0, Q), and the result
    has [N] entries.  Calling it with [r] and [a] the same object, as
    [matrix_vector_multiply] and [dilithium_keygen] do, gives the same
    polynomial as with a separate [r]. *)
Theorem poly_add_pointwise_and_alias_safe (a b : list Z) (k : nat) :
  length a = N -> length b = N -> (k < N)%nat ->
  length (poly_add a b) = N /\
  poly_add a b !!! k = (a !!! k + b !!! k) mod Q /\
  0 <= poly_add a b !!! k < Q /\
  poly_add_inplace a b = poly_add a b.
Proof.
  intros Hlen _ Hk.
  destruct (poly_add_spec a b k Hk) as [Hl Hp].
  split; [exact Hl|]. split; [exact Hp|].
  split; [rewrite Hp; apply Z.mod_pos_bound; reflexivity|].
  apply list_eq_pointwise.
  - rewrite Hl. apply (poly_add_inplace_spec a b 0 Hlen). unfold N. lia.
  - intros j Hj.
    destruct (poly_add_inplace_spec a b j Hlen) as [Hl' Hp']; [|].
    { destruct (poly_add_inplace_spec a b 0 Hlen) as [Hl0 _]; [unfold N; lia|].
      lia. }
    rewrite Hp'. symmetry. apply poly_add_spec.
    destruct (poly_add_inplace_spec a b 0 Hlen) as [Hl0 _]; [unfold N; lia|].
    lia.
Qed.

Lemma poly_add_pointwise_and_alias_safe_witness :
  (length (repeat 8380416 256) = N /\ length (repeat 5 256) = N /\
   (7 < N)%nat) /\
  poly_add (repeat 8380416 256) (repeat 5 256) !!! 7%nat = (8380416 + 5) mod Q /\
  poly_add_inplace (repeat 8380416 256) (repeat 5 256) =
    poly_add (repeat 8380416 256) (repeat 5 256).
Proof.
  assert (Hk : (7 < N)%nat) by (unfold N; lia).
  split; [split; [reflexivity|split; [reflexivity|exact Hk]]|].
  pose proof (poly_add_pointwise_and_alias_safe
                (repeat 8380416 256) (repeat 5 256) 7 eq_refl eq_refl Hk)
    as (_ & Hp & _ & Heq).
  split; [|exact Heq].
  rewrite Hp. reflexivity.
Defined.

Lemma power2round_loop (t : list Z) (n : nat) :
  (n <= N)%nat ->
  let '(t1, t0) :=
    for_ n (fun i '(t1, t0) =>
      let c := rd t i in
      let mask := Z.shiftl 1 D - 1 in
      let t0 := wr t0 i (Z.land c mask) in
      let t1 := wr t1 i (Z.shiftr (c - rd t0 i) D) in
      (t1, t0)) (repeat 0 N, repeat 0 N) in
  length t1 = N /\ length t0 = N /\
  forall k : nat, (k < n)%nat ->
    t0 !!! k = (t !!! k) mod 2 ^ D /\
    t1 !!! k = (t !!! k) / 2 ^ D.
Proof.
  induction n as [|n IH]; intros Hn.
  - unfold for_. cbn [seq fold_left]. rewrite !repeat_length.
    repeat split; lia.
  - rewrite for_S. specialize (IH ltac:(lia)).
    destruct (for_ n _ _) as [t1 t0]. destruct IH as (Hl1 & Hl0 & IH).
    cbv zeta. unfold wr, rd. rewrite Nat2Z.id, !length_insert.
    split; [exact Hl1|]. split; [exact Hl0|].
    intros k Hk. rewrite (list_lookup_total_insert_eq t0) by lia.
    change (Z.shiftl 1 D - 1) with (Z.ones 13).
    rewrite Z.land_ones, Z.shiftr_div_pow2 by (unfold D; lia).
    destruct (decide (n = k)) as [<-|Hne].
    + rewrite !list_lookup_total_insert_eq by lia.
      split; [reflexivity|]. unfold D.
      pose proof (Z.div_mod (t !!! n) (2 ^ 13) ltac:(lia)) as Hdm.
      replace (t !!! n - (t !!! n) mod 2 ^ 13) with (t !!! n / 2 ^ 13 * 2 ^ 13)
        by lia.
      apply Z.div_mul. lia.
    + rewrite !list_lookup_total_insert_ne by exact Hne. apply IH. lia.
Qed.

(** X11. [poly_power2round] splits every non-negative coefficient [c]
    of [t] into a low part [t0 = c mod 2^13] and a high part
    [t1 = c / 2^13]: [t1 * 2^13 + t0 = c] with [0 <= t0 < 2^13], and for
    a reduced coefficient ([c < Q]) the high part fits in ten bits.
    Both results have [N] coefficients. *)
Theorem poly_power2round_recombines (t : list Z) (k : nat) :
  (k < N)%nat -> 0 <= t !!! k ->
  let '(t1, t0) := poly_power2round t in
  length t1 = N /\ length t0 = N /\
  t1 !!! k * 2 ^ D + t0 !!! k = t !!! k /\
  0 <= t0 !!! k < 2 ^ D /\
  0 <= t1 !!! k /\
  (t !!! k < Q -> t1 !!! k < 2 ^ 10).
Proof.
  intros Hk Hc. unfold poly_power2round.
  pose proof (power2round_loop t N ltac:(lia)) as Hloop.
  destruct (for_ N _ _) as [t1 t0]. destruct Hloop as (Hl1 & Hl0 & Hp).
  destruct (Hp k Hk) as [H0 H1]. rewrite H0, H1. unfold D, Q.
  split; [exact Hl1|]. split; [exact Hl0|].
  pose proof (Z.div_mod (t !!! k) (2 ^ 13) ltac:(lia)).
  pose proof (Z.mod_pos_bound (t !!! k) (2 ^ 13) ltac:(lia)).
  split; [lia|]. split; [lia|].
  split; [apply Z.div_pos; lia|].
  intros Hq. apply Z.div_lt_upper_bound; lia.
Qed.

Lemma poly_power2round_recombines_witness :
  ((3 < N)%nat /\ 0 <= repeat 8380416 256 !!! 3%nat) /\
  fst (poly_power2round (repeat 8380416 256)) !!! 3%nat * 2 ^ D +
  snd (poly_power2round (repeat 8380416 256)) !!! 3%nat = 8380416.
Proof.
  assert (Hk : (3 < N)%nat) by (unfold N; lia).
  assert (Hc : 0 <= repeat 8380416 256 !!! 3%nat) by (cbn; lia).
  split; [split; assumption|].
  pose proof (poly_power2round_recombines (repeat 8380416 256) 3 Hk Hc) as H.
  destruct (poly_power2round (repeat 8380416 256)) as [t1 t0].
  exact (proj1 (proj2 (proj2 H))).
Defined.

(** ** The product modulo [x ^ N + 1] *)

Lemma for_ext {A : Type} (n : nat) (body1 body2 : Z -> A -> A) (a : A) :
  (forall (i : nat) (x : A), (i < n)%nat ->
     body1 (Z.of_nat i) x = body2 (Z.of_nat i) x) ->
  for_ n body1 a = for_ n body2 a.
Proof.
  induction n as [|n IH]; intros Hext; [reflexivity|].
  rewrite !for_S, IH by (intros; apply Hext; lia). apply Hext. lia.
Qed.

Lemma sumZ_S (n : nat) (f : Z -> Z) :
  sumZ (S n) f = sumZ n f + f (Z.of_nat n).
Proof. unfold sumZ. rewrite for_S. reflexivity. Qed.

Lemma sumZ_ext (n : nat) (f g : Z -> Z) :
  (forall i : nat, (i < n)%nat -> f (Z.of_nat i) = g (Z.of_nat i)) ->
  sumZ n f = sumZ n g.
Proof.
  induction n as [|n IH]; intros Hext; [reflexivity|].
  rewrite !sumZ_S, IH by (intros; apply Hext; lia).
  rewrite Hext by lia. reflexivity.
Qed.

(** A loop that adds [p j] into entry [tgt j], reducing modulo [Q]. *)
Lemma accumulate_loop (tgt p : Z -> Z) (n : nat) (r0 : list Z) :
  (forall j : nat, (j < n)%nat -> 0 <= tgt (Z.of_nat j) < Z.of_nat (length r0)) ->
  let r := for_ n (fun j r =>
                     wr r (tgt j) (reduce_mod_q (rd r (tgt j) + p j))) r0 in
  length r = length r0 /\
  forall k : nat,
    (r !!! k) mod Q =
      (r0 !!! k + sumZ n (fun j => if tgt j =? Z.of_nat k then p j else 0)) mod Q /\
    (0 <= r0 !!! k < Q -> 0 <= r !!! k < Q).
Proof.
  induction n as [|n IH]; intros Htgt; cbv zeta.
  - split; [reflexivity|]. intros k. unfold sumZ, for_. cbn [seq fold_left].
    rewrite Z.add_0_r. split; [reflexivity|tauto].
  - rewrite for_S. destruct (IH ltac:(intros; apply Htgt; lia)) as [Hlen Hk].
    set (r := for_ n _ r0) in *.
    split; [rewrite wr_length; exact Hlen|].
    intros k. destruct (Hk k) as [Hmod Hrange].
    specialize (Htgt n ltac:(lia)).
    rewrite sumZ_S. unfold wr, rd.
    destruct (decide (Z.to_nat (tgt (Z.of_nat n)) = k)) as [Heq|Hne].
    + rewrite Heq, list_lookup_total_insert_eq by lia.
      assert (Ht : tgt (Z.of_nat n) = Z.of_nat k) by lia.
      rewrite Ht, Z.eqb_refl, reduce_mod_q_mod. split.
      * rewrite Z.mod_mod by (unfold Q; lia).
        rewrite <- Zplus_mod_idemp_l, Hmod, Zplus_mod_idemp_l.
        f_equal. lia.
      * intros _. apply Z.mod_pos_bound. reflexivity.
    + rewrite list_lookup_total_insert_ne by exact Hne.
      destruct (Z.eqb_spec (tgt (Z.of_nat n)) (Z.of_nat k)) as [Ht|_]; [lia|].
      rewrite Z.add_0_r. split; assumption.
Qed.

Lemma repeat_lookup_total (x : Z) (n : nat) :
  forall k : nat, (k < n)%nat -> repeat x n !!! k = x.
Proof.
  induction n as [|n IH]; intros [|k] Hk; try lia; [reflexivity|].
  change (repeat x n !!! k = x). apply IH. lia.
Qed.

(** Where the product of coefficients [i] and [j] goes, and with which
    sign. *)
Lemma poly_multiply_inner_body (a b : list Z) (i j : Z) (r : list Z) :
  (let k := i + j in
   let product := rd a i * rd b j in
   let '(k, product) :=
     if k >=? Z.of_nat N then (k - Z.of_nat N, - product) else (k, product) in
   wr r k (reduce_mod_q (rd r k + product))) =
  wr r (if i + j >=? Z.of_nat N then i + j - Z.of_nat N else i + j)
     (reduce_mod_q
        (rd r (if i + j >=? Z.of_nat N then i + j - Z.of_nat N else i + j) +
         (if i + j >=? Z.of_nat N then - (rd a i * rd b j)
          else rd a i * rd b j))).
Proof. cbv zeta. destruct (i + j >=? Z.of_nat N); reflexivity. Qed.

Lemma poly_multiply_outer (a b : list Z) (m : nat) :
  (m <= N)%nat ->
  let r := for_ m (fun i r =>
             for_ N (fun j r =>
               let k := i + j in
               let product := rd a i * rd b j in
               let '(k, product) :=
                 if k >=? Z.of_nat N then (k - Z.of_nat N, - product)
                 else (k, product) in
               wr r k (reduce_mod_q (rd r k + product))) r) poly_zero in
  length r = N /\
  forall k : nat, (k < N)%nat ->
    0 <= r !!! k < Q /\
    (r !!! k) mod Q =
      sumZ m (fun i => sumZ N (fun j =>
        if i + j =? Z.of_nat k then rd a i * rd b j
        else if i + j =? Z.of_nat k + Z.of_nat N then - (rd a i * rd b j)
        else 0)) mod Q.
Proof.
  induction m as [|m IH]; intros Hm; cbv zeta.
  - rewrite !for_0. unfold poly_zero.
    rewrite repeat_length. split; [reflexivity|]. intros k Hk.
    assert (Hz : repeat 0 N !!! k = 0).
    { apply repeat_lookup_total. exact Hk. }
    rewrite Hz. split; [unfold Q; lia|reflexivity].
  - rewrite for_S. destruct (IH ltac:(lia)) as [Hlen Hk].
    set (r0 := for_ m _ poly_zero) in *.
    pose (tgt := fun j : Z => if Z.of_nat m + j >=? Z.of_nat N
                              then Z.of_nat m + j - Z.of_nat N
                              else Z.of_nat m + j).
    pose (p := fun j : Z => if Z.of_nat m + j >=? Z.of_nat N
                            then - (rd a (Z.of_nat m) * rd b j)
                            else rd a (Z.of_nat m) * rd b j).
    rewrite (for_ext N _
               (fun j r => wr r (tgt j) (reduce_mod_q (rd r (tgt j) + p j))) r0)
      by (intros j x _; apply poly_multiply_inner_body).
    pose proof (accumulate_loop tgt p N r0) as Hacc. subst tgt p.
    cbv zeta beta in Hacc. destruct Hacc as [Hlen' Hk'].
    { intros j Hj. rewrite Hlen.
      destruct (Z.geb_spec (Z.of_nat m + Z.of_nat j) (Z.of_nat N)) as [H|H]; lia. }
    split; [rewrite Hlen'; exact Hlen|].
    intros k Hkn. destruct (Hk k Hkn) as [Hr Hmod]. destruct (Hk' k) as [Hmod' Hr'].
    split; [apply Hr', Hr|].
    rewrite Hmod', sumZ_S, <- Zplus_mod_idemp_l, Hmod, Zplus_mod_idemp_l.
    f_equal. f_equal. apply sumZ_ext. intros j Hj.
    destruct (Z.geb_spec (Z.of_nat m + Z.of_nat j) (Z.of_nat N)) as [H|H];
      repeat match goal with
             | |- context [Z.eqb ?x ?y] => destruct (Z.eqb_spec x y)
             end; try lia; reflexivity.
Qed.

(** X12. [poly_multiply] computes the product in
    [Z_Q[x] / (x ^ N + 1)]: coefficient [k] of the result is, modulo [Q]
    and in [0, Q), the sum of [a[i] * b[j]] over [i + j = k] minus the sum
    over [i + j = k + N]; the result has [N] coefficients.  Negative
    coefficients of [a] or [b] are handled, the result is reduced
    all the same. *)
Theorem poly_multiply_is_negacyclic_product (a b : list Z) (k : nat) :
  length a = N -> length b = N -> (k < N)%nat ->
  length (poly_multiply a b) = N /\
  poly_multiply a b !!! k = negacyclic_coeff a b (Z.of_nat k) mod Q /\
  0 <= poly_multiply a b !!! k < Q.
Proof.
  intros _ _ Hk. unfold poly_multiply, negacyclic_coeff.
  destruct (poly_multiply_outer a b N ltac:(lia)) as [Hlen Hp].
  split; [exact Hlen|]. destruct (Hp k Hk) as [Hr Hmod].
  split; [|exact Hr].
  rewrite <- Hmod. symmetry. apply Z.mod_small, Hr.
Qed.

Lemma poly_multiply_is_negacyclic_product_witness :
  (length (repeat 1 256) = N /\ length (repeat (-2) 256) = N /\ (0 < N)%nat) /\
  0 <= poly_multiply (repeat 1 256) (repeat (-2) 256) !!! 0%nat < Q.
Proof.
  assert (Hk : (0 < N)%nat) by (unfold N; lia).
  split; [repeat split; exact Hk|].
  exact (proj2 (proj2 (poly_multiply_is_negacyclic_product
                         (repeat 1 256) (repeat (-2) 256) 0 eq_refl eq_refl Hk))).
Defined.

(** ** What the placeholder hash gives its callers *)

Lemma byte_land_ones (b : Z) : 0 <= b < 256 -> Z.land b (Z.ones 8) = b.
Proof. intros Hb. rewrite Z.land_ones by lia. apply Z.mod_small. exact Hb. Qed.

Lemma byte_xor_counter (b i : Z) :
  0 <= b < 256 ->
  Z.lxor (Z.land (Z.lxor b (Z.land i 0xFF)) 0xFF) (Z.land i 0xFF) = b.
Proof.
  intros Hb. apply byte_land_ones in Hb. rewrite <- Hb.
  change 255 with (Z.ones 8). Z.bitblast.
Qed.

Lemma rd_byte (a : list Z) (i : Z) :
  Forall (fun b => 0 <= b < 256) a -> 0 <= rd a i < 256.
Proof.
  intros Ha. unfold rd. rewrite list_lookup_total_alt.
  destruct (a !! Z.to_nat i) as [w|] eqn:Hw; cbn.
  - exact (proj1 (Forall_lookup _ a) Ha _ _ Hw).
  - lia.
Qed.

Lemma placeholder_output_bytes (outlen : nat) (input : list Z) (inlen : Z)
    (out : list Z) :
  0 < inlen <= Z.of_nat (length input) ->
  KeyGen.shake256 outlen input inlen = Some out ->
  length out = outlen /\ Forall (fun b => 0 <= b < 256) out.
Proof.
  intros Hlen Hout.
  destruct (shake256_loop_total input inlen outlen Hlen 0 ltac:(lia))
    as (out' & Hout' & Hl & Hk).
  unfold KeyGen.shake256 in Hout. rewrite Hout' in Hout.
  injection Hout as <-. split; [exact Hl|].
  apply Forall_lookup. intros k b Hb.
  assert (Hlt : (k < outlen)%nat) by (rewrite <- Hl; eapply lookup_lt_Some, Hb).
  rewrite (Hk k Hlt) in Hb. injection Hb as <-.
  change 255 with (Z.ones 8). rewrite Z.land_ones by lia.
  apply Z.mod_pos_bound. lia.
Qed.

(** X13. The placeholder [shake256] hides nothing: XORing output byte
    [i] with the counter byte [i & 0xFF] gives back input byte
    [i % inlen], so the first [inlen] output bytes determine the whole
    input (for the callers, the seed). *)
Theorem placeholder_shake256_reveals_input
    (outlen : nat) (input : list Z) (inlen : Z) (i : nat) :
  0 < inlen <= Z.of_nat (length input) ->
  Forall (fun b => 0 <= b < 256) input ->
  (i < outlen)%nat ->
  exists out : list Z,
    KeyGen.shake256 outlen input inlen = Some out /\
    Z.lxor (out !!! i) (Z.land (Z.of_nat i) 0xFF) =
      input !!! Z.to_nat (Z.of_nat i mod inlen).
Proof.
  intros Hlen Hin Hi.
  destruct (shake256_loop_total input inlen outlen Hlen 0 ltac:(lia))
    as (out & Hout & Hl & Hk).
  exists out. split; [exact Hout|].
  rewrite (list_lookup_total_correct out i _ (Hk i Hi)).
  rewrite Z.add_0_l. apply byte_xor_counter.
  apply (rd_byte input (Z.of_nat i mod inlen) Hin).
Qed.

Lemma placeholder_shake256_reveals_input_witness :
  (0 < 3 <= Z.of_nat (length [0x10; 0x20; 0x30]) /\
   Forall (fun b => 0 <= b < 256) [0x10; 0x20; 0x30] /\ (4 < 5)%nat) /\
  exists out : list Z,
    KeyGen.shake256 5 [0x10; 0x20; 0x30] 3 = Some out /\
    Z.lxor (out !!! 4%nat) 4 = 0x20.
Proof.
  assert (Hin : Forall (fun b => 0 <= b < 256) [0x10; 0x20; 0x30])
    by (repeat constructor; lia).
  split; [split; [cbn; lia|split; [exact Hin|lia]]|].
  exact (placeholder_shake256_reveals_input 5 [0x10; 0x20; 0x30] 3 4
           ltac:(cbn; lia) Hin ltac:(lia)).
Defined.

Lemma sample_small_poly_range (seed : list Z) (nonce : Z) (coeffs : list Z) :
  length seed = SEEDBYTES ->
  sample_small_poly seed nonce = Some coeffs ->
  length coeffs = N /\ Forall (fun c => - ETA <= c <= ETA) coeffs.
Proof.
  intros Hlen Hs. unfold sample_small_poly in Hs.
  destruct (KeyGen.shake256 (N * 2) _ _) as [buf|] eqn:Hbuf; [|discriminate Hs].
  unfold mbind, option_bind in Hs. apply (inj Some) in Hs. subst coeffs.
  apply placeholder_output_bytes in Hbuf;
    [|rewrite expand_seed_length by exact Hlen; lia].
  destruct Hbuf as [_ Hbytes].
  apply (for_invariant (fun r => length r = N /\ Forall (fun c => - ETA <= c <= ETA) r)).
  - split; [apply repeat_length|].
    apply Forall_forall. intros c Hc. apply list_elem_of_In, repeat_spec in Hc.
    subst c. unfold ETA. lia.
  - intros i r [Hl Hr]. split; [rewrite wr_length; exact Hl|].
    apply Forall_insert; [exact Hr|].
    pose proof (rd_byte buf i Hbytes) as Hb.
    pose proof (Z.rem_bound_pos (rd buf i) (2 * ETA + 1) (proj1 Hb)
                  ltac:(unfold ETA; lia)).
    unfold ETA in *. lia.
Qed.

(** X14. For a 32-byte seed and any nonce, [sample_small_poly] fills all
    [N] coefficients and each lies in [-ETA, ETA], as its comment says. *)
Theorem sample_small_poly_is_small (seed : list Z) (nonce : Z) :
  length seed = SEEDBYTES ->
  exists coeffs : list Z,
    sample_small_poly seed nonce = Some coeffs /\
    length coeffs = N /\
    Forall (fun c => - ETA <= c <= ETA) coeffs.
Proof.
  intros Hlen. destruct (sample_small_poly_total seed nonce Hlen) as [coeffs Hs].
  exists coeffs. split; [exact Hs|].
  exact (sample_small_poly_range seed nonce coeffs Hlen Hs).
Qed.

Lemma sample_small_poly_is_small_witness :
  length (repeat 7 32) = SEEDBYTES /\
  exists coeffs : list Z,
    sample_small_poly (repeat 7 32) 3 = Some coeffs /\ length coeffs = N.
Proof.
  split; [reflexivity|].
  destruct (sample_small_poly_is_small (repeat 7 32) 3 eq_refl)
    as (coeffs & Hs & Hl & _).
  exists coeffs. split; assumption.
Defined.

Lemma mapM_Some_Forall {A B : Type} (f : A -> option B) (P : B -> Prop)
    (l : list A) (k : list B) :
  mapM f l = Some k ->
  (forall x y, f x = Some y -> P y) ->
  length k = length l /\ Forall P k.
Proof.
  intros Hm HP. apply mapM_Some_1 in Hm.
  induction Hm as [|x y l k Hxy _ [IHl IHP]]; [split; [reflexivity|constructor]|].
  split; [cbn; congruence|]. constructor; [apply (HP x), Hxy|exact IHP].
Qed.

Lemma expand_entry_range (seed : list Z) (i j : Z) (p : list Z) :
  expand_entry seed i j = Some p ->
  length p = N /\ Forall (fun c => 0 <= c < Q) p.
Proof.
  intros Hs. unfold expand_entry in Hs.
  destruct (KeyGen.shake256 (N * 4) _ _) as [buf|]; [|discriminate Hs].
  unfold mbind, option_bind in Hs. apply (inj Some) in Hs. subst p.
  apply (for_invariant (fun r => length r = N /\ Forall (fun c => 0 <= c < Q) r)).
  - split; [apply repeat_length|].
    apply Forall_forall. intros c Hc. apply list_elem_of_In, repeat_spec in Hc.
    subst c. unfold Q. lia.
  - intros k r [Hl Hr]. split; [rewrite wr_length; exact Hl|].
    apply Forall_insert; [exact Hr|]. apply Z.mod_pos_bound. reflexivity.
Qed.

(** X15. For a 32-byte seed [expand_matrix_a] fills a [K] by [L] matrix
    of polynomials with [N] coefficients each, every coefficient reduced
    to [0, Q). *)
Theorem expand_matrix_a_shape (seed : list Z) :
  length seed = SEEDBYTES ->
  exists A : list (list (list Z)),
    expand_matrix_a seed = Some A /\
    length A = K /\
    Forall (fun row =>
              length row = L /\
              Forall (fun p => length p = N /\ Forall (fun c => 0 <= c < Q) p)
                     row) A.
Proof.
  intros Hlen. destruct (expand_matrix_a_total seed Hlen) as [A HA].
  exists A. split; [exact HA|]. unfold expand_matrix_a in HA.
  eapply mapM_Some_Forall in HA as [Hl HF].
  - split; [rewrite Hl; reflexivity|exact HF].
  - intros i row Hrow. cbv beta in Hrow.
    eapply mapM_Some_Forall in Hrow as [Hl' HF'].
    + split; [rewrite Hl'; reflexivity|exact HF'].
    + intros j p. apply expand_entry_range.
Qed.

Lemma expand_matrix_a_shape_witness :
  length (repeat 7 32) = SEEDBYTES /\
  exists A : list (list (list Z)),
    expand_matrix_a (repeat 7 32) = Some A /\ length A = K.
Proof.
  split; [reflexivity|].
  destruct (expand_matrix_a_shape (repeat 7 32) eq_refl) as (A & HA & Hl & _).
  exists A. split; assumption.
Defined.

(** ** Vectors of polynomials *)

(** A loop over a vector that rewrites entry [i] from its old value in
    iteration [i]. *)
Lemma for_insert_pointwise {A : Type} `{!Inhabited A} (h : Z -> A -> A)
    (n : nat) (a : list A) :
  length (for_ n (fun i r =>
                    <[Z.to_nat i := h i (r !!! Z.to_nat i)]> r) a) = length a /\
  forall k : nat,
    (n <= length a)%nat ->
    for_ n (fun i r => <[Z.to_nat i := h i (r !!! Z.to_nat i)]> r) a !!! k =
      if (k <? n)%nat then h (Z.of_nat k) (a !!! k) else a !!! k.
Proof.
  induction n as [|n [IHlen IH]].
  - split; [reflexivity|]. intros k _. reflexivity.
  - rewrite for_S. split; [rewrite length_insert; exact IHlen|].
    intros k Hn. pose proof (IH n ltac:(lia)) as IHn.
    pose proof (IH k ltac:(lia)) as IHk.
    set (r := for_ n _ a) in *. rewrite Nat2Z.id.
    rewrite list_lookup_total_insert, IHn, IHk.
    rewrite Nat.ltb_irrefl.
    destruct (decide _) as [[<- _]|Hne].
    + rewrite (proj2 (Nat.ltb_lt n (S n))) by lia. reflexivity.
    + assert (n <> k) by (intros ->; apply Hne; split; [reflexivity|lia]).
      destruct (Nat.ltb_spec k n), (Nat.ltb_spec k (S n)); try lia; reflexivity.
Qed.

(** A loop that only rewrites entry [i] of a vector is a loop on that
    entry. *)
Lemma for_on_entry {A : Type} `{!Inhabited A} (g : Z -> A -> A) (i : nat)
    (n : nat) (v : list A) :
  (i < length v)%nat ->
  for_ n (fun j r => <[i := g j (r !!! i)]> r) v =
    <[i := for_ n g (v !!! i)]> v.
Proof.
  intros Hi. induction n as [|n IH].
  - rewrite !for_0. symmetry. apply list_insert_id'. intros _.
    apply list_lookup_lookup_total_lt, Hi.
  - rewrite !for_S, IH. rewrite list_lookup_total_insert_eq by exact Hi.
    apply list_insert_insert_eq.
Qed.

(** The row [i] of [A * s1], accumulated over [j]. *)
Lemma mvm_row_coeff (A : list (list (list Z))) (s1 : list (list Z))
    (i : Z) (n k : nat) :
  (k < N)%nat ->
  let row :=
    for_ n (fun j row =>
              poly_add_inplace row
                (poly_multiply ((A !!! Z.to_nat i) !!! Z.to_nat j)
                               (s1 !!! Z.to_nat j))) poly_zero in
  length row = N /\
  row !!! k =
    sumZ n (fun j => poly_multiply ((A !!! Z.to_nat i) !!! Z.to_nat j)
                                   (s1 !!! Z.to_nat j) !!! k) mod Q.
Proof.
  intros Hk. induction n as [|n [IHl IHk]]; cbv zeta.
  - rewrite for_0. unfold poly_zero. rewrite repeat_length.
    split; [reflexivity|]. rewrite repeat_lookup_total by exact Hk. reflexivity.
  - rewrite for_S. set (row := for_ n _ poly_zero) in *.
    destruct (poly_add_inplace_spec row
                (poly_multiply ((A !!! Z.to_nat i) !!! Z.to_nat (Z.of_nat n))
                               (s1 !!! Z.to_nat (Z.of_nat n))) k IHl Hk)
      as [Hl Hp].
    split; [exact Hl|]. rewrite Hp, IHk, sumZ_S, Zplus_mod_idemp_l. reflexivity.
Qed.

Lemma matrix_vector_multiply_rows (A : list (list (list Z)))
    (s1 : list (list Z)) (i : nat) :
  (i < K)%nat ->
  length (matrix_vector_multiply A s1) = K /\
  matrix_vector_multiply A s1 !!! i =
    for_ L (fun j row =>
              poly_add_inplace row
                (poly_multiply ((A !!! i) !!! Z.to_nat j) (s1 !!! Z.to_nat j)))
         poly_zero.
Proof.
  intros Hi. unfold matrix_vector_multiply.
  pose (h := fun (x : Z) (_ : list Z) =>
               for_ L (fun j row =>
                 poly_add_inplace row
                   (poly_multiply ((A !!! Z.to_nat x) !!! Z.to_nat j)
                                  (s1 !!! Z.to_nat j))) poly_zero).
  assert (Hbody : forall (x : nat) (res : list (list Z)),
            (x < K)%nat -> length res = K ->
            (let result := <[Z.to_nat (Z.of_nat x) := poly_zero]> res in
             for_ L (fun j result =>
               let temp := poly_multiply
                             ((A !!! Z.to_nat (Z.of_nat x)) !!! Z.to_nat j)
                             (s1 !!! Z.to_nat j) in
               <[Z.to_nat (Z.of_nat x) :=
                   poly_add_inplace (result !!! Z.to_nat (Z.of_nat x)) temp]>
                 result) result) =
            <[Z.to_nat (Z.of_nat x) :=
                h (Z.of_nat x) (res !!! Z.to_nat (Z.of_nat x))]> res).
  { intros x res Hx Hres. cbv zeta. rewrite Nat2Z.id.
    rewrite (for_on_entry
               (fun j row => poly_add_inplace row
                  (poly_multiply ((A !!! x) !!! Z.to_nat j) (s1 !!! Z.to_nat j)))
               x L (<[x := poly_zero]> res))
      by (rewrite length_insert; lia).
    rewrite list_lookup_total_insert_eq by lia.
    rewrite list_insert_insert_eq. unfold h. rewrite Nat2Z.id. reflexivity. }
  assert (Hloop : forall n : nat, (n <= K)%nat ->
            for_ n (fun i result =>
              let result := <[Z.to_nat i := poly_zero]> result in
              for_ L (fun j result =>
                let temp := poly_multiply ((A !!! Z.to_nat i) !!! Z.to_nat j)
                                          (s1 !!! Z.to_nat j) in
                <[Z.to_nat i := poly_add_inplace (result !!! Z.to_nat i) temp]>
                  result) result) (repeat poly_zero K) =
            for_ n (fun i r => <[Z.to_nat i := h i (r !!! Z.to_nat i)]> r)
                 (repeat poly_zero K)).
  { induction n as [|n IHn]; intros Hn; [reflexivity|].
    rewrite !for_S, IHn by lia. apply Hbody; [lia|].
    rewrite (proj1 (for_insert_pointwise h n _)). apply repeat_length. }
  rewrite Hloop by lia.
  destruct (for_insert_pointwise h K (repeat poly_zero K)) as [Hl Hp].
  rewrite repeat_length in Hl. split; [exact Hl|].
  rewrite Hp by (rewrite repeat_length; lia).
  rewrite (proj2 (Nat.ltb_lt i K) Hi). unfold h. rewrite Nat2Z.id. reflexivity.
Qed.

Lemma mvm_coeff (A : list (list (list Z))) (s1 : list (list Z)) (i k : nat) :
  (i < K)%nat -> (k < N)%nat ->
  length (matrix_vector_multiply A s1) = K /\
  length (matrix_vector_multiply A s1 !!! i) = N /\
  (matrix_vector_multiply A s1 !!! i) !!! k =
    sumZ L (fun j => poly_multiply ((A !!! i) !!! Z.to_nat j)
                                   (s1 !!! Z.to_nat j) !!! k) mod Q.
Proof.
  intros Hi Hk.
  destruct (matrix_vector_multiply_rows A s1 i Hi) as [Hl Hrow].
  split; [exact Hl|]. rewrite Hrow.
  pose proof (mvm_row_coeff A s1 (Z.of_nat i) L k Hk) as Hc.
  cbv zeta in Hc. rewrite Nat2Z.id in Hc. exact Hc.
Qed.

(** X16. [matrix_vector_multiply] computes [A * s1] over the polynomial
    ring: the result has [K] polynomials of [N] coefficients, and
    coefficient [k] of entry [i] is the sum over [j < L] of coefficient
    [k] of [poly_multiply (A[i][j], s1[j])], reduced modulo [Q]. *)
Theorem matrix_vector_multiply_is_row_sum
    (A : list (list (list Z))) (s1 : list (list Z)) (i k : nat) :
  (i < K)%nat -> (k < N)%nat ->
  length (matrix_vector_multiply A s1) = K /\
  length (matrix_vector_multiply A s1 !!! i) = N /\
  (matrix_vector_multiply A s1 !!! i) !!! k =
    sumZ L (fun j => poly_multiply ((A !!! i) !!! Z.to_nat j)
                                   (s1 !!! Z.to_nat j) !!! k) mod Q.
Proof. apply mvm_coeff. Qed.

Lemma matrix_vector_multiply_is_row_sum_witness :
  let A := repeat (repeat (repeat 5 256) 4) 4 in
  let s1 := repeat (repeat (-2) 256) 4 in
  ((3 < K)%nat /\ (255 < N)%nat) /\
  length (matrix_vector_multiply A s1) = K /\
  length (matrix_vector_multiply A s1 !!! 3%nat) = N.
Proof.
  intros A s1. subst A s1.
  assert (Hi : (3 < K)%nat) by (unfold K; lia).
  assert (Hk : (255 < N)%nat) by (unfold N; lia).
  split; [split; assumption|].
  pose proof (matrix_vector_multiply_is_row_sum
                (repeat (repeat (repeat 5 256) 4) 4) (repeat (repeat (-2) 256) 4)
                3 255 Hi Hk) as (H1 & H2 & _).
  split; assumption.
Defined.

(** ** Key generation *)

Lemma random_seed_bytes (rands : list Z) :
  length (random_seed rands) = SEEDBYTES /\
  Forall (fun b => 0 <= b < 256) (random_seed rands).
Proof.
  unfold random_seed.
  apply (for_invariant (fun r => length r = SEEDBYTES /\
                                 Forall (fun b => 0 <= b < 256) r)).
  - split; [reflexivity|]. unfold SEEDBYTES. cbn [repeat].
    repeat constructor; lia.
  - intros i r [Hl Hr]. split; [rewrite wr_length; exact Hl|].
    apply Forall_insert; [exact Hr|].
    change 255 with (Z.ones 8). rewrite Z.land_ones by lia.
    apply Z.mod_pos_bound. lia.
Qed.

Lemma for_pair_split {A B : Type} (f : Z -> A * B) (n : nat)
    (a1 : list A) (a0 : list B) :
  for_ n (fun i '(t1, t0) =>
            let '(p1, p0) := f i in
            (<[Z.to_nat i := p1]> t1, <[Z.to_nat i := p0]> t0)) (a1, a0) =
  (for_ n (fun i t1 => <[Z.to_nat i := fst (f i)]> t1) a1,
   for_ n (fun i t0 => <[Z.to_nat i := snd (f i)]> t0) a0).
Proof.
  induction n as [|n IH]; [reflexivity|].
  rewrite !for_S, IH. destruct (f (Z.of_nat n)). reflexivity.
Qed.

(** What [dilithium_keygen] returns, step by step. *)
Lemma dilithium_keygen_steps (rands1 rands2 : list Z) :
  exists (A : list (list (list Z))) (s1 s2 T1 T0 : list (list Z)),
    expand_matrix_a (random_seed rands1) = Some A /\
    mapM (fun i => sample_small_poly (random_seed rands2) i)
         (seqZ 0 (Z.of_nat L)) = Some s1 /\
    mapM (fun i => sample_small_poly (random_seed rands2) (Z.of_nat L + i))
         (seqZ 0 (Z.of_nat K)) = Some s2 /\
    length T1 = K /\ length T0 = K /\
    (forall i : nat, (i < K)%nat ->
       T1 !!! i = fst (poly_power2round (keygen_t A s1 s2 !!! i)) /\
       T0 !!! i = snd (poly_power2round (keygen_t A s1 s2 !!! i))) /\
    dilithium_keygen rands1 rands2 =
      Some (mk_public_key (random_seed rands1) T1,
            mk_secret_key (random_seed rands1) s1 s2 T0).
Proof.
  destruct (random_seed_bytes rands1) as [Hl1 _].
  destruct (random_seed_bytes rands2) as [Hl2 _].
  unfold dilithium_keygen. cbv zeta.
  remember (random_seed rands1) as seed1 eqn:E1.
  remember (random_seed rands2) as seed2 eqn:E2. clear E1 E2.
  destruct (expand_matrix_a_total seed1 Hl1) as [A HA].
  destruct (mapM_is_Some_2 (fun i => sample_small_poly seed2 i)
              (seqZ 0 (Z.of_nat L))) as [s1 Hs1].
  { apply Forall_forall. intros i _. unfold compose.
    apply sample_small_poly_total, Hl2. }
  destruct (mapM_is_Some_2 (fun i => sample_small_poly seed2 (Z.of_nat L + i))
              (seqZ 0 (Z.of_nat K))) as [s2 Hs2].
  { apply Forall_forall. intros i _. unfold compose.
    apply sample_small_poly_total, Hl2. }
  pose proof (for_insert_pointwise
                (fun (x : Z) (_ : list Z) =>
                   fst (poly_power2round (keygen_t A s1 s2 !!! Z.to_nat x)))
                K (repeat poly_zero K)) as [Hlen1 H1].
  pose proof (for_insert_pointwise
                (fun (x : Z) (_ : list Z) =>
                   snd (poly_power2round (keygen_t A s1 s2 !!! Z.to_nat x)))
                K (repeat poly_zero K)) as [Hlen0 H0].
  cbv beta in Hlen1, H1, Hlen0, H0. rewrite repeat_length in Hlen1, Hlen0.
  exists A, s1, s2,
    (for_ K (fun i t1 =>
       <[Z.to_nat i :=
           fst (poly_power2round (keygen_t A s1 s2 !!! Z.to_nat i))]> t1)
       (repeat poly_zero K)),
    (for_ K (fun i t0 =>
       <[Z.to_nat i :=
           snd (poly_power2round (keygen_t A s1 s2 !!! Z.to_nat i))]> t0)
       (repeat poly_zero K)).
  split; [exact HA|]. split; [exact Hs1|]. split; [exact Hs2|].
  split; [exact Hlen1|]. split; [exact Hlen0|]. split.
  - intros i Hi.
    specialize (H1 i ltac:(rewrite repeat_length; lia)).
    specialize (H0 i ltac:(rewrite repeat_length; lia)).
    rewrite (proj2 (Nat.ltb_lt i K) Hi), Nat2Z.id in H1, H0.
    split; [exact H1|exact H0].
  - rewrite HA, Hs1, Hs2. unfold mbind, option_bind.
    rewrite (for_pair_split
               (fun i => poly_power2round (keygen_t A s1 s2 !!! Z.to_nat i))).
    rewrite firstn_all2 by (rewrite Hl1; reflexivity). reflexivity.
Qed.

Lemma keygen_t_coeff (A : list (list (list Z))) (s1 s2 : list (list Z))
    (i k : nat) :
  (i < K)%nat -> (k < N)%nat ->
  length (keygen_t A s1 s2 !!! i) = N /\
  (keygen_t A s1 s2 !!! i) !!! k =
    ((matrix_vector_multiply A s1 !!! i) !!! k + (s2 !!! i) !!! k) mod Q.
Proof.
  intros Hi Hk. unfold keygen_t.
  destruct (mvm_coeff A s1 i k Hi Hk) as (Hl & Hli & _).
  destruct (for_insert_pointwise
              (fun x row => poly_add_inplace row (s2 !!! Z.to_nat x)) K
              (matrix_vector_multiply A s1)) as [_ Hp].
  rewrite Hp by lia. rewrite (proj2 (Nat.ltb_lt i K) Hi), Nat2Z.id.
  apply poly_add_inplace_spec; assumption.
Qed.

Lemma poly_power2round_coeff (t : list Z) (k : nat) :
  (k < N)%nat ->
  length (fst (poly_power2round t)) = N /\
  length (snd (poly_power2round t)) = N /\
  snd (poly_power2round t) !!! k = (t !!! k) mod 2 ^ D /\
  fst (poly_power2round t) !!! k = (t !!! k) / 2 ^ D.
Proof.
  intros Hk. unfold poly_power2round.
  pose proof (power2round_loop t N ltac:(lia)) as Hloop.
  destruct (for_ N _ _) as [t1 t0]. destruct Hloop as (Hl1 & Hl0 & Hp).
  cbn [fst snd]. split; [exact Hl1|]. split; [exact Hl0|]. apply Hp, Hk.
Qed.

(** X17. The keys fit together: for every coefficient, the public high
    part [t1] and the secret low part [t0] recombine,
    [t1 * 2^13 + t0], to the coefficient of [t = A * s1 + s2] modulo [Q],
    where [A] is the matrix expanded from the public seed and [s1], [s2]
    are the secret vectors; [t0] has 13 bits and [t1] has 10.  This
    holds whatever [rand ()] returns, and key generation never fails. *)
Theorem dilithium_keygen_key_equation (rands1 rands2 : list Z) (i k : nat) :
  (i < K)%nat -> (k < N)%nat ->
  exists (pk : public_key) (sk : secret_key) (A : list (list (list Z))),
    dilithium_keygen rands1 rands2 = Some (pk, sk) /\
    expand_matrix_a (pk_seed pk) = Some A /\
    (pk_t1 pk !!! i) !!! k * 2 ^ D + (sk_t0 sk !!! i) !!! k =
      ((matrix_vector_multiply A (sk_s1 sk) !!! i) !!! k +
       (sk_s2 sk !!! i) !!! k) mod Q /\
    0 <= (sk_t0 sk !!! i) !!! k < 2 ^ D /\
    0 <= (pk_t1 pk !!! i) !!! k < 2 ^ 10.
Proof.
  intros Hi Hk.
  destruct (dilithium_keygen_steps rands1 rands2)
    as (A & s1 & s2 & T1 & T0 & HA & _ & _ & _ & _ & HT & Hkey).
  destruct (HT i Hi) as [E1 E0].
  exists (mk_public_key (random_seed rands1) T1),
         (mk_secret_key (random_seed rands1) s1 s2 T0), A.
  split; [exact Hkey|]. cbn [pk_seed pk_t1 sk_t0 sk_s1 sk_s2].
  split; [exact HA|]. rewrite E1, E0.
  set (t := keygen_t A s1 s2) in *.
  destruct (poly_power2round_coeff (t !!! i) k Hk) as (_ & _ & Hlow & Hhigh).
  destruct (keygen_t_coeff A s1 s2 i k Hi Hk) as [_ Ht]. fold t in Ht.
  rewrite Hlow, Hhigh, <- Ht. unfold D.
  assert (Hrange : 0 <= (t !!! i) !!! k < Q)
    by (rewrite Ht; apply Z.mod_pos_bound; reflexivity).
  pose proof (Z.div_mod ((t !!! i) !!! k) (2 ^ 13) ltac:(lia)).
  pose proof (Z.mod_pos_bound ((t !!! i) !!! k) (2 ^ 13) ltac:(lia)).
  split; [lia|]. split; [lia|].
  split; [apply Z.div_pos; lia|].
  apply Z.div_lt_upper_bound; unfold Q in Hrange; lia.
Qed.

Lemma dilithium_keygen_key_equation_witness :
  ((0 < K)%nat /\ (0 < N)%nat) /\
  exists (pk : public_key) (sk : secret_key),
    dilithium_keygen (seqZ 0 32) (seqZ 100 32) = Some (pk, sk) /\
    0 <= (pk_t1 pk !!! 0%nat) !!! 0%nat < 2 ^ 10.
Proof.
  assert (Hi : (0 < K)%nat) by (unfold K; lia).
  assert (Hk : (0 < N)%nat) by (unfold N; lia).
  split; [split; assumption|].
  destruct (dilithium_keygen_key_equation (seqZ 0 32) (seqZ 100 32) 0 0 Hi Hk)
    as (pk & sk & A & Hkey & _ & _ & _ & Ht1).
  exists pk, sk. split; assumption.
Defined.

(** X18. [dilithium_keygen] stores the public seed in both keys, as 32
    bytes; the secret vectors [s1] and [s2] have [L] and [K] polynomials
    of [N] coefficients in [-ETA, ETA]; and [t1], [t0] have [K] entries
    each. *)
Theorem dilithium_keygen_shapes (rands1 rands2 : list Z) :
  exists (pk : public_key) (sk : secret_key),
    dilithium_keygen rands1 rands2 = Some (pk, sk) /\
    sk_seed sk = pk_seed pk /\
    length (pk_seed pk) = SEEDBYTES /\
    Forall (fun b => 0 <= b < 256) (pk_seed pk) /\
    length (sk_s1 sk) = L /\ length (sk_s2 sk) = K /\
    Forall (fun p => length p = N /\ Forall (fun c => - ETA <= c <= ETA) p)
           (sk_s1 sk ++ sk_s2 sk) /\
    length (pk_t1 pk) = K /\ length (sk_t0 sk) = K.
Proof.
  destruct (dilithium_keygen_steps rands1 rands2)
    as (A & s1 & s2 & T1 & T0 & _ & Hs1 & Hs2 & HlT1 & HlT0 & _ & Hkey).
  destruct (random_seed_bytes rands1) as [Hl1 Hb1].
  destruct (random_seed_bytes rands2) as [Hl2 _].
  exists (mk_public_key (random_seed rands1) T1),
         (mk_secret_key (random_seed rands1) s1 s2 T0).
  split; [exact Hkey|].
  cbn [pk_seed pk_t1 sk_seed sk_t0 sk_s1 sk_s2].
  eapply mapM_Some_Forall in Hs1 as [Hls1 HF1];
    [|intros x y; apply (sample_small_poly_range _ _ _ Hl2)].
  eapply mapM_Some_Forall in Hs2 as [Hls2 HF2];
    [|intros x y; apply (sample_small_poly_range _ _ _ Hl2)].
  rewrite length_seqZ in Hls1, Hls2.
  split; [reflexivity|]. split; [exact Hl1|]. split; [exact Hb1|].
  split; [rewrite Hls1; apply Nat2Z.id|].
  split; [rewrite Hls2; apply Nat2Z.id|].
  split; [apply Forall_app; split; assumption|].
  split; assumption.
Qed.

(** ** The first block *)

Lemma get_byte_zeros (p : Z) :
  0 <= p < 200 -> get_byte (repeat 0 STATE_SIZE) p = 0.
Proof.
  intros Hp. unfold get_byte, rd.
  rewrite repeat_lookup_total
    by (apply (flat_index_in_state (repeat 0 STATE_SIZE) p eq_refl Hp)).
  rewrite Z.shiftr_0_l. reflexivity.
Qed.

Lemma shake_init_state (shake_bits : Z) :
  state (shake_init shake_bits) = repeat 0 STATE_SIZE.
Proof.
  unfold shake_init, shake_init_io.
  destruct (shake_bits =? 128); [|destruct (shake_bits =? 256)]; reflexivity.
Qed.

Lemma first_block_bytes (shake_bits : Z) (m : list Z) :
  Z.of_nat (length m) < rate (shake_init shake_bits) ->
  let c := shake_absorb (shake_init shake_bits) m in
  absorb_pos c = Z.of_nat (length m) /\
  forall p : Z, 0 <= p < 200 ->
    get_byte (state c) p =
      if p <? Z.of_nat (length m) then Z.land (m !!! Z.to_nat p) 0xFF else 0.
Proof.
  induction m as [|b m IH] using rev_ind; intros Hlen c.
  - subst c. cbn [shake_absorb fold_left length]. split; [apply shake_init_pos|].
    intros p Hp. rewrite shake_init_state, get_byte_zeros by exact Hp.
    destruct (Z.ltb_spec p (Z.of_nat 0)); [lia|reflexivity].
  - rewrite length_app in Hlen. cbn [length] in Hlen.
    destruct (IH ltac:(lia)) as [Hpos Hbytes]. clear IH.
    subst c. rewrite shake_absorb_app. cbn [shake_absorb fold_left].
    fold (shake_absorb (shake_init shake_bits) m) in *.
    set (c := shake_absorb (shake_init shake_bits) m) in *.
    assert (Hinv : absorbing_inv c) by apply shake_absorb_inv, shake_init_inv.
    assert (Hrate : rate c = rate (shake_init shake_bits))
      by apply shake_absorb_rate.
    destruct Hinv as (_ & Hr200 & Hlanes).
    unfold absorb_byte. rewrite Hpos, Hrate, wrap64_small by lia.
    destruct (Z.eqb_spec (Z.of_nat (length m) + 1) (rate (shake_init shake_bits)));
      [lia|].
    cbn [state absorb_pos]. rewrite length_app. cbn [length].
    split; [lia|]. intros p Hp.
    destruct (Z.eq_dec p (Z.of_nat (length m))) as [->|Hne].
    + rewrite get_xor_byte_same
        by first [lia | apply flat_index_in_state; [exact Hlanes|lia]].
      rewrite Hbytes by lia. rewrite Z.ltb_irrefl, Z.lxor_0_l.
      destruct (Z.ltb_spec (Z.of_nat (length m)) (Z.of_nat (length m + 1)));
        [|lia].
      rewrite Nat2Z.id, lookup_total_app_r by lia.
      rewrite Nat.sub_diag. reflexivity.
    + rewrite get_xor_byte_other by lia. rewrite Hbytes by exact Hp.
      destruct (Z.ltb_spec p (Z.of_nat (length m))),
               (Z.ltb_spec p (Z.of_nat (length m + 1))); try lia.
      rewrite lookup_total_app_l by lia. reflexivity.
Qed.

(** X19. Absorbing is XOR into the zero state: for an input shorter
    than one block, [shake_absorb] on a fresh engine runs no permutation,
    leaves the cursor at the input length, and the byte view of the state
    then reads the input back, byte for byte, followed by zeros up to
    byte 199. *)
Theorem short_input_is_stored_verbatim
    (shake_bits : Z) (m : list Z) (p : Z) :
  Z.of_nat (length m) < rate (shake_init shake_bits) ->
  0 <= p < 200 ->
  let c := shake_absorb (shake_init shake_bits) m in
  permutations (shake_absorb_steps (shake_init shake_bits) m) = 0%nat /\
  absorb_pos c = Z.of_nat (length m) /\
  get_byte (state c) p =
    if p <? Z.of_nat (length m) then Z.land (m !!! Z.to_nat p) 0xFF else 0.
Proof.
  intros Hlen Hp c.
  destruct (first_block_bytes shake_bits m Hlen) as [Hpos Hbytes].
  split; [|split; [exact Hpos|apply Hbytes, Hp]].
  apply Nat2Z.inj.
  rewrite absorb_steps_permutations by apply shake_init_inv.
  rewrite shake_init_pos, Z.add_0_l. apply Z.div_small. lia.
Qed.

Lemma short_input_is_stored_verbatim_witness :
  (Z.of_nat (length [0x41; 0x42; 0x43]) < rate (shake_init 128) /\
   0 <= 1 < 200) /\
  get_byte (state (shake_absorb (shake_init 128) [0x41; 0x42; 0x43])) 1 = 0x42.
Proof.
  assert (Hlen : Z.of_nat (length [0x41; 0x42; 0x43]) < rate (shake_init 128))
    by (change (3 < 168); lia).
  split; [split; [exact Hlen|lia]|].
  exact (proj2 (proj2 (short_input_is_stored_verbatim
                         128 [0x41; 0x42; 0x43] 1 Hlen ltac:(lia)))).
Defined.

(** X20. The block that [shake_finalize] permutes for an input [m]
    shorter than one block is the FIPS 202 padding of [m]: the bytes of
    [m], then the suffix byte 0x1F at index [length m], zeros, and 0x80
    XORed into byte [rate - 1] (so 0x9F there when [length m = rate - 1]);
    the capacity bytes stay zero. *)
Theorem short_input_padded_block (shake_bits : Z) (m : list Z) (p : Z) :
  Z.of_nat (length m) < rate (shake_init shake_bits) ->
  0 <= p < 200 ->
  let r := rate (shake_init shake_bits) in
  let c := shake_absorb (shake_init shake_bits) m in
  state (shake_finalize c) = keccak_f1600 (finalize_pad c) /\
  get_byte (finalize_pad c) p =
    Z.lxor
      (Z.lxor (if p <? Z.of_nat (length m)
               then Z.land (m !!! Z.to_nat p) 0xFF else 0)
              (if p =? Z.of_nat (length m) then 0x1F else 0))
      (if p =? r - 1 then 0x80 else 0).
Proof.
  intros Hlen Hp r c. split; [reflexivity|].
  destruct (first_block_bytes shake_bits m Hlen) as [Hpos Hbytes].
  fold c in Hpos, Hbytes.
  assert (Hinv : absorbing_inv c) by apply shake_absorb_inv, shake_init_inv.
  assert (Hrate : rate c = r) by apply shake_absorb_rate.
  destruct Hinv as (_ & Hr200 & Hlanes).
  unfold finalize_pad. rewrite Hpos, Hrate, wrap64_small by lia.
  assert (Hr : 0 < r) by (subst r; lia).
  destruct (Z.eqb_spec p (r - 1)) as [->|Hne1].
  - rewrite get_xor_byte_same
      by first [lia | rewrite xor_byte_length; apply flat_index_in_state;
                        [exact Hlanes|lia]].
    change (Z.land 128 255) with 128. f_equal.
    destruct (Z.eqb_spec (r - 1) (Z.of_nat (length m))) as [Heq|Hne].
    + rewrite Heq. rewrite get_xor_byte_same
        by first [lia | apply flat_index_in_state; [exact Hlanes|lia]].
      rewrite Hbytes by lia. rewrite Z.ltb_irrefl. reflexivity.
    + rewrite get_xor_byte_other by lia. rewrite Hbytes by lia.
      rewrite Z.lxor_0_r. reflexivity.
  - rewrite get_xor_byte_other by lia. rewrite Z.lxor_0_r.
    destruct (Z.eqb_spec p (Z.of_nat (length m))) as [->|Hne].
    + rewrite get_xor_byte_same
        by first [lia | apply flat_index_in_state; [exact Hlanes|lia]].
      rewrite Hbytes by lia. rewrite Z.ltb_irrefl. reflexivity.
    + rewrite get_xor_byte_other by lia. rewrite Hbytes by lia.
      rewrite Z.lxor_0_r. reflexivity.
Qed.

Lemma short_input_padded_block_witness :
  (Z.of_nat (length [0x41; 0x42]) < rate (shake_init 256) /\ 0 <= 2 < 200) /\
  get_byte (finalize_pad (shake_absorb (shake_init 256) [0x41; 0x42])) 2 = 0x1F.
Proof.
  assert (Hlen : Z.of_nat (length [0x41; 0x42]) < rate (shake_init 256))
    by (change (2 < 136); lia).
  split; [split; [exact Hlen|lia]|].
  exact (proj2 (short_input_padded_block 256 [0x41; 0x42] 2 Hlen ltac:(lia))).
Defined.
